(** * TADI: type-annotation dependency injection

    A shallow embedding of [tadi.py] (class [Injector]) and the
    verification of its specification.

    Python objects are modelled by reference: a class object is its
    identity, an instance is its class together with its address in a heap
    of constructed objects.  The methods of [Injector] run in a state and
    exception monad whose state holds the injector itself ([self]), the
    heap, and the log of the user functions that were called.

    What the module takes from outside is kept outside: the reflection of
    the host ([__name__], [issubclass], [inspect.getfullargspec]) is a
    parameter, [Host]; the constructor of a user class is taken to accept
    its annotated parameters and to keep them in the new object; the body
    of a user function is not modelled, its call is logged.

    [resolve] is recursive on the registry, not on its argument, so it
    takes fuel; [resolve_terminates] shows that the size of the index plus
    two is always enough. *)

From stdpp Require Import base strings gmap list.

(** ** Values of the host language *)

(** A class object, compared by identity ([==] on classes). *)
Definition type := nat.

(** [Any]: a class object, or an instance, given by its class and the
    address at which its constructor allocated it. *)
Inductive Any :=
| VType (t : type)
| VInst (cls : type) (addr : nat).

Global Instance Any_eq_dec : EqDecision Any.
Proof. solve_decision. Defined.

(** What a parameter annotation may be: a forward reference by name, a live
    class object, or any other value. *)
Inductive annotation :=
| AStr (s : string)
| AType (t : type)
| AOther.

(** The annotations of [inspect.getfullargspec]: an insertion-ordered dict,
    the entry ["return"] (when present) being the return annotation. *)
Abbreviation annotations := (list (string * annotation)).

(** The reflection facility of the host, which the module uses but does
    not implement. *)
Record Host := {
  (** [cls.__name__] *)
  __name__ : type → string;
  (** [issubclass(cls, base)] *)
  issubclass : type → type → bool;
  (** [type(cls)], the class of a class object *)
  metaclass : type → type;
  (** [inspect.getfullargspec(cls.__init__).annotations] *)
  init_annotations : type → annotations;
  (** [callable(obj)] for an instance of [cls] (its class defines [__call__];
      function objects are such instances) *)
  has_call : type → bool;
  (** [inspect.getfullargspec(fn).annotations] for a callable instance *)
  call_annotations : Any → annotations;
}.

(** ** Exceptions *)

Inductive exn :=
| CyclicDependencyError (interface : string) (stack : list string)
| ImplementedError (interface : string)
| ImplementationInterfaceMismatchError (implementation interface : string)
| UnimplementedError (interface : string)
| TypeError
| ValueError.

Global Instance exn_eq_dec : EqDecision exn.
Proof. solve_decision. Defined.

(** ** The injector and the world around it *)

Record Injector := {
  interfaces : gmap string type;
  scoped_services : list (type * type);
  singleton_services : list (type * Any);
}.

(** An instance built by a constructor call: its class and the keyword
    arguments the constructor received. *)
Record object := {
  ob_type : type;
  ob_kwargs : gmap string Any;
}.

Record world := {
  self : Injector;
  heap : list object;
  calls : list (Any * gmap string Any);
}.

(** [Injector.__init__] *)
Definition Injector_init : Injector :=
  {| interfaces := ∅; scoped_services := []; singleton_services := [] |}.

(** ** The state and exception monad *)

Inductive outcome (A : Type) :=
| Return (a : A)
| Raise (e : exn)
| OutOfFuel.
Arguments Return {A} a.
Arguments Raise {A} e.
Arguments OutOfFuel {A}.

Definition M (A : Type) : Type := world → outcome A * world.

Global Instance M_ret : MRet M := λ A a w, (Return a, w).

Global Instance M_bind : MBind M := λ A B f m w,
  match m w with
  | (Return a, w') => f a w'
  | (Raise e, w') => (Raise e, w')
  | (OutOfFuel, w') => (OutOfFuel, w')
  end.

Definition raise {A} (e : exn) : M A := λ w, (Raise e, w).

(** A method that only reads [self]. *)
Definition reading {A} (f : Injector → outcome A) : M A := λ w, (f (self w), w).

(** A statement that assigns to the attributes of [self]. *)
Definition update_self (f : Injector → Injector) : M unit := λ w,
  (Return (), {| self := f (self w); heap := heap w; calls := calls w |}).

(** [for x in items: body], threading the local variables [s]. *)
Fixpoint for_each {A S} (items : list A) (body : A → S → M S) (s : S) : M S :=
  match items with
  | [] => mret s
  | x :: rest => s' ← body x s; for_each rest body s'
  end.

(** [extends w w']: from [w] to [w'] the injector and the call log are the
    same, and the heap has only grown. *)
Definition extends (w w' : world) : Prop :=
  self w' = self w ∧ calls w' = calls w ∧ heap w `prefix_of` heap w'.

Section Tadi.
Context (py : Host).

(** [isinstance(obj, type)] *)
Definition is_type (obj : Any) : bool :=
  match obj with VType _ => true | VInst _ _ => false end.

(** [obj.__class__] *)
Definition __class__ (obj : Any) : type :=
  match obj with VType t => metaclass py t | VInst cls _ => cls end.

(** [isinstance(obj, cls)] *)
Definition isinstance (obj : Any) (cls : type) : bool :=
  issubclass py (__class__ obj) cls.

(** [callable(obj)]: every class is callable. *)
Definition callable (obj : Any) : bool :=
  match obj with VType _ => true | VInst cls _ => has_call py cls end.

(** [inspect.getfullargspec(fn).annotations]: for a class the annotations
    of its [__init__], for an instance those of its [__call__].  The
    reflection is taken to succeed; an object that it refuses with a
    [TypeError] (a built-in callable, the class [type] itself) is outside
    this model. *)
Definition getfullargspec (fn : Any) : annotations :=
  match fn with
  | VType t => init_annotations py t
  | VInst _ _ => call_annotations py fn
  end.

(** [for k, v in services: if k == interface: return v] *)
Fixpoint find_service {V} (services : list (type * V)) (interface : type)
    : option V :=
  match services with
  | [] => None
  | (k, v) :: rest =>
      if decide (k = interface) then Some v else find_service rest interface
  end.

(** [Injector.implementation] *)
Definition implementation (inj : Injector) (interface : type) : outcome Any :=
  match find_service (scoped_services inj) interface with
  | Some tv => Return (VType tv)
  | None =>
      match find_service (singleton_services inj) interface with
      | Some av => Return av
      | None => Raise (UnimplementedError (__name__ py interface))
      end
  end.

(** [Injector.interface] *)
Definition interface (inj : Injector) (interface_id : annotation)
    : outcome type :=
  let lookup (interface_id : string) : outcome type :=
    match interfaces inj !! interface_id with
    | Some t => Return t
    | None => Raise (UnimplementedError interface_id)
    end in
  match interface_id with
  | AOther => Raise TypeError
  | AType t => lookup (__name__ py t)
  | AStr s => lookup s
  end.

(** [Injector._register_interface] *)
Definition _register_interface (interface : type) : M unit := λ w,
  match interfaces (self w) !! __name__ py interface with
  | Some _ => (Raise (ImplementedError (__name__ py interface)), w)
  | None =>
      update_self (λ inj,
        {| interfaces := <[__name__ py interface := interface]> (interfaces inj);
           scoped_services := scoped_services inj;
           singleton_services := singleton_services inj |}) w
  end.

(** [Injector.register_scoped] *)
Definition register_scoped (interface implementation : type) : M unit :=
  if negb (issubclass py implementation interface) then
    raise (ImplementationInterfaceMismatchError
             (__name__ py implementation) (__name__ py interface))
  else
    _register_interface interface;;
    update_self (λ inj,
      {| interfaces := interfaces inj;
         scoped_services := scoped_services inj ++ [(interface, implementation)];
         singleton_services := singleton_services inj |}).

(** [Injector.register_singleton] *)
Definition register_singleton (interface : type) (singleton : Any) : M unit :=
  if negb (isinstance singleton interface) then
    raise (ImplementationInterfaceMismatchError
             (__name__ py (__class__ singleton)) (__name__ py interface))
  else
    _register_interface interface;;
    update_self (λ inj,
      {| interfaces := interfaces inj;
         scoped_services := scoped_services inj;
         singleton_services := singleton_services inj ++ [(interface, singleton)] |}).

(** The call of [implementation] with [**kwargs].  The constructor is code
    of the user, not of the module: it is taken to accept the keyword
    arguments, one for each annotated parameter, and to allocate a new
    object that keeps them.  A constructor that raises (a parameter that
    has neither an annotation nor a default, an exception of its body) is
    outside this model, and the results below that say that [resolve]
    returns are results about constructors that do not. *)
Definition construct (implementation : type) (kwargs : gmap string Any)
    : M Any := λ w,
  (Return (VInst implementation (length (heap w))),
   {| self := self w;
      heap := heap w ++ [{| ob_type := implementation; ob_kwargs := kwargs |}];
      calls := calls w |}).

(** [stack + [interface] if stack is not None else [interface]] *)
Definition push (stack : option (list type)) (interface : type) : list type :=
  match stack with
  | Some stack => stack ++ [interface]
  | None => [interface]
  end.

(** [stack is not None and interface in stack] *)
Definition on_stack (stack : option (list type)) (interface : type) : bool :=
  match stack with
  | Some stack => bool_decide (interface ∈ stack)
  | None => false
  end.

(** [[x.__name__ for x in stack]] *)
Definition stack_names (stack : option (list type)) : list string :=
  match stack with
  | Some stack => __name__ py <$> stack
  | None => []
  end.

(** The body of the loop over the annotations, in [resolve] and in
    [resolve_callable]: skip the return annotation, look the interface of
    the parameter up and resolve it. *)
Definition bind_parameter (resolve_dependency : type → M Any)
    : string * annotation → gmap string Any → M (gmap string Any) :=
  λ '(parametername, parametertype) kwargs,
    if decide (parametername = "return") then mret kwargs
    else
      dependency ← reading (λ inj, interface inj parametertype);
      value ← resolve_dependency dependency;
      mret (<[parametername := value]> kwargs).

(** [Injector.resolve]; [fuel] bounds the depth of the recursion. *)
Fixpoint resolve (fuel : nat) (interface_ : type) (stack : option (list type))
    : M Any :=
  match fuel with
  | 0 => λ w, (OutOfFuel, w)
  | S fuel =>
      implementation_ ← reading (λ inj, implementation inj interface_);
      match implementation_ with
      | VInst _ _ => mret implementation_
      | VType impl =>
          if on_stack stack interface_ then
            raise (CyclicDependencyError
                     (__name__ py interface_) (stack_names stack))
          else
            kwargs ← for_each (init_annotations py impl)
              (bind_parameter
                 (λ dependency,
                    resolve fuel dependency (Some (push stack interface_))))
              ∅;
            construct impl kwargs
      end
  end.

(** The value of the [lambda] expression: a closure over [fn] and
    [kwargs]. *)
Record Lambda := {
  lambda_fn : Any;
  lambda_kwargs : gmap string Any;
}.

(** [Injector.resolve_callable] *)
Definition resolve_callable (fuel : nat) (fn : Any) : M Lambda :=
  if negb (callable fn) then raise ValueError
  else
    kwargs ← for_each (getfullargspec fn)
      (bind_parameter (λ dependency, resolve fuel dependency None))
      ∅;
    mret {| lambda_fn := fn; lambda_kwargs := kwargs |}.

(** The call of [fn] with [**kwargs]: a class runs its constructor; the
    call of any other callable is logged. *)
Definition call (fn : Any) (kwargs : gmap string Any) : M unit :=
  match fn with
  | VType impl => construct impl kwargs;; mret ()
  | VInst _ _ => λ w,
      (Return (),
       {| self := self w; heap := heap w; calls := calls w ++ [(fn, kwargs)] |})
  end.

(** Calling the closure returned by [resolve_callable]. *)
Definition invoke (f : Lambda) : M unit :=
  call (lambda_fn f) (lambda_kwargs f).

(** ** Sequences of registrations *)

Inductive registration :=
| RegisterScoped (interface implementation : type)
| RegisterSingleton (interface : type) (singleton : Any).

Definition registered_interface (r : registration) : type :=
  match r with
  | RegisterScoped interface _ => interface
  | RegisterSingleton interface _ => interface
  end.

(** The conformance check at the head of both registration methods. *)
Definition conforms (r : registration) : bool :=
  match r with
  | RegisterScoped interface implementation =>
      issubclass py implementation interface
  | RegisterSingleton interface singleton => isinstance singleton interface
  end.

Definition register (r : registration) : M unit :=
  match r with
  | RegisterScoped interface implementation =>
      register_scoped interface implementation
  | RegisterSingleton interface singleton =>
      register_singleton interface singleton
  end.

(** The calls are made one after the other; a call that raises is caught
    by the caller, who goes on with the next. *)
Fixpoint register_all (rs : list registration) (w : world) : world :=
  match rs with
  | [] => w
  | r :: rs => register_all rs (register r w).2
  end.

(** The binding that a registration adds to its table. *)
Definition add_binding (r : registration) (inj : Injector) : Injector :=
  match r with
  | RegisterScoped interface implementation =>
      {| interfaces := <[__name__ py interface := interface]> (interfaces inj);
         scoped_services :=
           scoped_services inj ++ [(interface, implementation)];
         singleton_services := singleton_services inj |}
  | RegisterSingleton interface singleton =>
      {| interfaces := <[__name__ py interface := interface]> (interfaces inj);
         scoped_services := scoped_services inj;
         singleton_services :=
           singleton_services inj ++ [(interface, singleton)] |}
  end.

(** A world whose injector has just been created. *)
Definition fresh (h : list object) (c : list (Any * gmap string Any)) : world :=
  {| self := Injector_init; heap := h; calls := c |}.

(** ** The registry seen as a dependency graph *)

Definition scoped_names (inj : Injector) : list string :=
  (λ kv, __name__ py kv.1) <$> scoped_services inj.

Definition singleton_names (inj : Injector) : list string :=
  (λ kv, __name__ py kv.1) <$> singleton_services inj.

(** [J] has a binding, in the scoped or in the singleton table. *)
Definition bound (inj : Injector) (J : type) : Prop :=
  J ∈ (scoped_services inj).*1 ∨ J ∈ (singleton_services inj).*1.

(** The invariant of the registry: the index [interfaces] holds, under
    its name, every interface that has a binding and nothing else, and
    no name is bound twice. *)
Definition consistent (inj : Injector) : Prop :=
  NoDup (scoped_names inj ++ singleton_names inj) ∧
  (∀ n t, interfaces inj !! n = Some t ↔ __name__ py t = n ∧ bound inj t).

(** The name an annotation refers to. *)
Definition annotation_name (a : annotation) : option string :=
  match a with
  | AStr s => Some s
  | AType t => Some (__name__ py t)
  | AOther => None
  end.

(** The constructor of the implementation bound to [I] has a parameter
    annotated with [a]. *)
Definition parameter_of (inj : Injector) (I : type) (a : annotation) : Prop :=
  ∃ impl parametername,
    implementation inj I = Return (VType impl) ∧
    (parametername, a) ∈ init_annotations py impl ∧
    parametername ≠ "return".

(** [I] depends directly on [J]. *)
Definition depends (inj : Injector) (I J : type) : Prop :=
  ∃ a, parameter_of inj I a ∧ interface inj a = Return J.

(** [chain inj I l J]: [l] is a path of the dependency graph that starts
    at [I], and whose last interface depends on [J]. *)
Fixpoint chain (inj : Injector) (I : type) (l : list type) (J : type) : Prop :=
  match l with
  | [] => I = J
  | X :: l => X = I ∧ ∃ K, depends inj I K ∧ chain inj K l J
  end.

(** ** The outcome of a resolution, without the objects

Whether [resolve] returns or raises, and what it raises, depends on the
registry alone, not on the heap.  [verdict] follows the control flow of
[resolve] and leaves the values out; [resolve_verdict] below shows that it
tells the outcome of [resolve]. *)

Definition shape {A} (o : outcome A) : outcome unit :=
match o with
| Return _ => Return ()
| Raise e => Raise e
| OutOfFuel => OutOfFuel
end.

(** The first outcome, in the order of the list, that is not a return. *)
Fixpoint first_failure {A} (f : A → outcome unit) (items : list A)
  : outcome unit :=
match items with
| [] => Return ()
| x :: rest =>
    match f x with
    | Return _ => first_failure f rest
    | failure => failure
    end
end.

Definition check_parameter (inj : Injector) (check : type → outcome unit)
  : string * annotation → outcome unit :=
λ '(parametername, parametertype),
  if decide (parametername = "return") then Return ()
  else
    match interface inj parametertype with
    | Return dependency => check dependency
    | Raise e => Raise e
    | OutOfFuel => OutOfFuel
    end.

Fixpoint verdict (fuel : nat) (inj : Injector) (interface_ : type)
    (stack : option (list type)) : outcome unit :=
match fuel with
| 0 => OutOfFuel
| S fuel =>
    match implementation inj interface_ with
    | Return (VInst _ _) => Return ()
    | Return (VType impl) =>
        if on_stack stack interface_ then
          Raise (CyclicDependencyError
                   (__name__ py interface_) (stack_names stack))
        else
          first_failure
            (check_parameter inj
               (λ dependency,
                  verdict fuel inj dependency (Some (push stack interface_))))
            (init_annotations py impl)
    | Raise e => Raise e
    | OutOfFuel => OutOfFuel
    end
end.

(** Every interface that [I] needs, directly or through others, has a
    binding, and every annotation met on the way names an interface of the
    index. *)
Definition closed (inj : Injector) (I : type) : Prop :=
∀ J, rtc (depends inj) I J →
  bound inj J ∧
  ∀ a, parameter_of inj J a → ∃ K, interface inj a = Return K.

(** [t] is a value of the index [interfaces]. *)
Definition known (inj : Injector) (t : type) : Prop :=
∃ n, interfaces inj !! n = Some t.

(** The depth that the recursion of [resolve] cannot exceed. *)
Definition enough (inj : Injector) : nat := size (interfaces inj) + 2.

(** The annotated parameters: the annotations but the return annotation. *)
Definition parameters (anns : annotations) : annotations :=
filter (λ p, p.1 ≠ "return") anns.

(** [v] is a singleton of the registry, or an object that was built at
    address [base] or later. *)
Definition singleton_or_new (inj : Injector) (base : nat) (v : Any) : Prop :=
(∃ K, find_service (singleton_services inj) K = Some v) ∨
(∃ cls addr, v = VInst cls addr ∧ base ≤ addr).

(** No interface that [I] reaches needs itself again. *)
Definition acyclic_from (inj : Injector) (I : type) : Prop :=
∀ J, rtc (depends inj) I J → ¬ tc (depends inj) J J.

(** Every binding of the tables passes the check that its registration
    made. *)
Definition conforming (inj : Injector) : Prop :=
(∀ I impl, (I, impl) ∈ scoped_services inj → issubclass py impl I = true) ∧
(∀ I s, (I, s) ∈ singleton_services inj → isinstance s I = true).

(** What [implementation] is to return for the interface of a
    registration. *)
Definition binding_of (r : registration) : Any :=
match r with
| RegisterScoped _ implementation => VType implementation
| RegisterSingleton _ singleton => singleton
end.

(** The names under which a list of registrations would enter the index. *)
Definition names_of (rs : list registration) : list string :=
(λ r, __name__ py (registered_interface r)) <$> rs.

(** Two worlds with the same heap whose registries answer every lookup
    alike. *)
Definition alike (w w' : world) : Prop :=
heap w = heap w' ∧
(∀ I, implementation (self w) I = implementation (self w') I) ∧
(∀ a, interface (self w) a = interface (self w') a).

(** [I] needs [J], and no lookup can fail in what the constructor of [I]
    needs before: every parameter that comes before has an interface in
    the index, from which every interface reached is bound and every
    annotation names an interface of the index. *)
Definition clear_step (inj : Injector) (I J : type) : Prop :=
∃ impl before p a after,
  implementation inj I = Return (VType impl) ∧
  init_annotations py impl = before ++ (p, a) :: after ∧
  p ≠ "return" ∧
  interface inj a = Return J ∧
  ∀ q b, (q, b) ∈ parameters before →
         ∃ K, interface inj b = Return K ∧ closed inj K.

(** An outcome that is a [CyclicDependencyError], or the end of the fuel. *)
Definition cyclic_or_out (o : outcome unit) : Prop :=
o = OutOfFuel ∨ ∃ n ns, o = Raise (CyclicDependencyError n ns).

End Tadi.


(** ** The classes of the test suite

    The classes that [test.py] declares, and a few more of the same kind:
    a diamond of services and a service that needs an unregistered
    interface before it needs itself. *)

Module Classes.

Record class_decl := {
  cd_name : string;
  (** the class and its base classes *)
  cd_mro : list type;
  (** the annotations of [__init__] *)
  cd_init : annotations;
}.

Definition object_ : type := 0.
Definition type_ : type := 1.
Definition function_ : type := 2.
Definition Config : type := 3.
Definition SimpleOneService : type := 4.
Definition SimpleOneServiceImpl : type := 5.
Definition SimpleTwoService : type := 6.
Definition SimpleTwoServiceImpl : type := 7.
Definition ComplexService : type := 8.
Definition ComplexServiceImpl : type := 9.
Definition CyclicService : type := 10.
Definition CyclicServiceImpl : type := 11.
Definition SuperComplexService : type := 12.
Definition SuperComplexServiceImpl : type := 13.
Definition A : type := 14.
Definition AImpl : type := 15.
Definition B : type := 16.
Definition BImpl : type := 17.
Definition C : type := 18.
Definition CImpl : type := 19.
Definition D : type := 20.
Definition DImpl : type := 21.
Definition LateCycleService : type := 22.
Definition LateCycleServiceImpl : type := 23.

(** [-> None] *)
Definition returns_None : string * annotation := ("return", AOther).

Definition declarations : list class_decl := [
  {| cd_name := "object"; cd_mro := [object_]; cd_init := [] |};
  {| cd_name := "type"; cd_mro := [type_; object_]; cd_init := [] |};
  {| cd_name := "function"; cd_mro := [function_; object_]; cd_init := [] |};
  {| cd_name := "Config"; cd_mro := [Config; object_];
     cd_init := [returns_None] |};
  {| cd_name := "SimpleOneService"; cd_mro := [SimpleOneService; object_];
     cd_init := [] |};
  {| cd_name := "SimpleOneServiceImpl";
     cd_mro := [SimpleOneServiceImpl; SimpleOneService; object_];
     cd_init := [] |};
  {| cd_name := "SimpleTwoService"; cd_mro := [SimpleTwoService; object_];
     cd_init := [] |};
  {| cd_name := "SimpleTwoServiceImpl";
     cd_mro := [SimpleTwoServiceImpl; SimpleTwoService; object_];
     cd_init := [] |};
  {| cd_name := "ComplexService"; cd_mro := [ComplexService; object_];
     cd_init := [] |};
  {| cd_name := "ComplexServiceImpl";
     cd_mro := [ComplexServiceImpl; ComplexService; object_];
     cd_init := [returns_None;
                 ("simpleone_service", AStr "SimpleOneService");
                 ("simpletwo_service", AStr "SimpleTwoService")] |};
  {| cd_name := "CyclicService"; cd_mro := [CyclicService; object_];
     cd_init := [] |};
  {| cd_name := "CyclicServiceImpl";
     cd_mro := [CyclicServiceImpl; CyclicService; object_];
     cd_init := [returns_None; ("cyclic_service", AStr "CyclicService")] |};
  {| cd_name := "SuperComplexService";
     cd_mro := [SuperComplexService; object_]; cd_init := [] |};
  {| cd_name := "SuperComplexServiceImpl";
     cd_mro := [SuperComplexServiceImpl; SuperComplexService; object_];
     cd_init := [returns_None;
                 ("config", AStr "Config");
                 ("simpleone_service", AStr "SimpleOneService");
                 ("simpletwo_service", AStr "SimpleTwoService")] |};
  {| cd_name := "A"; cd_mro := [A; object_]; cd_init := [] |};
  {| cd_name := "AImpl"; cd_mro := [AImpl; A; object_];
     cd_init := [("b", AType B); ("c", AType C)] |};
  {| cd_name := "B"; cd_mro := [B; object_]; cd_init := [] |};
  {| cd_name := "BImpl"; cd_mro := [BImpl; B; object_];
     cd_init := [("d", AType D)] |};
  {| cd_name := "C"; cd_mro := [C; object_]; cd_init := [] |};
  {| cd_name := "CImpl"; cd_mro := [CImpl; C; object_];
     cd_init := [("d", AStr "D")] |};
  {| cd_name := "D"; cd_mro := [D; object_]; cd_init := [] |};
  {| cd_name := "DImpl"; cd_mro := [DImpl; D; object_]; cd_init := [] |};
  {| cd_name := "LateCycleService"; cd_mro := [LateCycleService; object_];
     cd_init := [] |};
  {| cd_name := "LateCycleServiceImpl";
     cd_mro := [LateCycleServiceImpl; LateCycleService; object_];
     cd_init := [("simpleone_service", AStr "SimpleOneService");
                 ("late_cycle_service", AStr "LateCycleService")] |}
].

Definition declaration (t : type) : class_decl :=
  default {| cd_name := ""; cd_mro := [t; object_]; cd_init := [] |}
          (declarations !! t).

(** The function [inner] of [testResolveCallable]. *)
Definition inner : Any := VInst function_ 0.

Definition py : Host := {|
  __name__ t := cd_name (declaration t);
  issubclass cls base := bool_decide (base ∈ cd_mro (declaration cls));
  metaclass _ := type_;
  init_annotations t := cd_init (declaration t);
  has_call cls := bool_decide (cls = function_);
  call_annotations fn :=
    if decide (fn = inner)
    then [returns_None; ("supercomplex_service", AType SuperComplexService)]
    else [];
|}.

(** The world before the first statement of a test. *)
Definition start : world := {| self := Injector_init; heap := []; calls := [] |}.

(** A diamond: [AImpl(b: B, c: C)], [BImpl(d: D)], [CImpl(d: "D")],
    [DImpl()]. *)
Definition diamond : world :=
register_all py
  [RegisterScoped A AImpl; RegisterScoped B BImpl;
   RegisterScoped C CImpl; RegisterScoped D DImpl] start.

(** The registry of [testResolveComplexService]. *)
Definition complex : world :=
register_all py
  [RegisterScoped ComplexService ComplexServiceImpl;
   RegisterScoped SimpleOneService SimpleOneServiceImpl;
   RegisterScoped SimpleTwoService SimpleTwoServiceImpl] start.

(** The registry of [testResolveCallable]; the configuration object is the
    first object of the heap. *)
Definition supercomplex : world :=
register_all py
  [RegisterSingleton Config (VInst Config 0);
   RegisterScoped SuperComplexService SuperComplexServiceImpl;
   RegisterScoped SimpleOneService SimpleOneServiceImpl;
   RegisterScoped SimpleTwoService SimpleTwoServiceImpl]
  {| self := Injector_init;
     heap := [{| ob_type := Config; ob_kwargs := ∅ |}];
     calls := [] |}.

End Classes.

(** ** Two classes of the same name

    Two modules declare a class [Service] each; a client is annotated with
    the one of the second module. *)

Module Namesakes.

Definition object_ : type := 0.
Definition type_ : type := 1.
Definition billing_Service : type := 2.
Definition billing_ServiceImpl : type := 3.
Definition shipping_Service : type := 4.
Definition shipping_ServiceImpl : type := 5.
Definition Client : type := 6.
Definition ClientImpl : type := 7.

Definition declarations : list Classes.class_decl := [
  {| Classes.cd_name := "object"; Classes.cd_mro := [object_];
     Classes.cd_init := [] |};
  {| Classes.cd_name := "type"; Classes.cd_mro := [type_; object_];
     Classes.cd_init := [] |};
  {| Classes.cd_name := "Service"; Classes.cd_mro := [billing_Service; object_];
     Classes.cd_init := [] |};
  {| Classes.cd_name := "ServiceImpl";
     Classes.cd_mro := [billing_ServiceImpl; billing_Service; object_];
     Classes.cd_init := [] |};
  {| Classes.cd_name := "Service"; Classes.cd_mro := [shipping_Service; object_];
     Classes.cd_init := [] |};
  {| Classes.cd_name := "ServiceImpl";
     Classes.cd_mro := [shipping_ServiceImpl; shipping_Service; object_];
     Classes.cd_init := [] |};
  {| Classes.cd_name := "Client"; Classes.cd_mro := [Client; object_];
     Classes.cd_init := [] |};
  {| Classes.cd_name := "ClientImpl"; Classes.cd_mro := [ClientImpl; Client; object_];
     Classes.cd_init := [("service", AType shipping_Service)] |}
].

Definition declaration (t : type) : Classes.class_decl :=
default {| Classes.cd_name := ""; Classes.cd_mro := [t; object_];
           Classes.cd_init := [] |}
        (declarations !! t).

Definition py : Host := {|
  __name__ t := Classes.cd_name (declaration t);
  issubclass cls base := bool_decide (base ∈ Classes.cd_mro (declaration cls));
  metaclass _ := type_;
  init_annotations t := Classes.cd_init (declaration t);
  has_call _ := false;
  call_annotations _ := [];
|}.

(** The service of the first module is registered. *)
Definition billing : world :=
register_all py [RegisterScoped billing_Service billing_ServiceImpl]
  {| self := Injector_init; heap := []; calls := [] |}.

End Namesakes.

(** ** Variants of the cycle and of the diamond

    A service that needs itself before it needs an unregistered interface,
    and a diamond whose [DImpl] needs an interface [E] that nobody
    registers. *)

Module Variants.

Definition object_ : type := 0.
Definition type_ : type := 1.
Definition EarlyCycleService : type := 2.
Definition EarlyCycleServiceImpl : type := 3.
Definition A : type := 4.
Definition AImpl : type := 5.
Definition B : type := 6.
Definition BImpl : type := 7.
Definition C : type := 8.
Definition CImpl : type := 9.
Definition D : type := 10.
Definition DImpl : type := 11.

Definition declarations : list Classes.class_decl := [
  {| Classes.cd_name := "object"; Classes.cd_mro := [object_];
     Classes.cd_init := [] |};
  {| Classes.cd_name := "type"; Classes.cd_mro := [type_; object_];
     Classes.cd_init := [] |};
  {| Classes.cd_name := "EarlyCycleService";
     Classes.cd_mro := [EarlyCycleService; object_]; Classes.cd_init := [] |};
  {| Classes.cd_name := "EarlyCycleServiceImpl";
     Classes.cd_mro := [EarlyCycleServiceImpl; EarlyCycleService; object_];
     Classes.cd_init := [("early_cycle_service", AStr "EarlyCycleService");
                         ("missing", AStr "Missing")] |};
  {| Classes.cd_name := "A"; Classes.cd_mro := [A; object_];
     Classes.cd_init := [] |};
  {| Classes.cd_name := "AImpl"; Classes.cd_mro := [AImpl; A; object_];
     Classes.cd_init := [("b", AType B); ("c", AType C)] |};
  {| Classes.cd_name := "B"; Classes.cd_mro := [B; object_];
     Classes.cd_init := [] |};
  {| Classes.cd_name := "BImpl"; Classes.cd_mro := [BImpl; B; object_];
     Classes.cd_init := [("d", AType D)] |};
  {| Classes.cd_name := "C"; Classes.cd_mro := [C; object_];
     Classes.cd_init := [] |};
  {| Classes.cd_name := "CImpl"; Classes.cd_mro := [CImpl; C; object_];
     Classes.cd_init := [("d", AType D)] |};
  {| Classes.cd_name := "D"; Classes.cd_mro := [D; object_];
     Classes.cd_init := [] |};
  {| Classes.cd_name := "DImpl"; Classes.cd_mro := [DImpl; D; object_];
     Classes.cd_init := [("e", AStr "E")] |}
].

Definition declaration (t : type) : Classes.class_decl :=
default {| Classes.cd_name := ""; Classes.cd_mro := [t; object_];
           Classes.cd_init := [] |}
        (declarations !! t).

Definition py : Host := {|
  __name__ t := Classes.cd_name (declaration t);
  issubclass cls base := bool_decide (base ∈ Classes.cd_mro (declaration cls));
  metaclass _ := type_;
  init_annotations t := Classes.cd_init (declaration t);
  has_call _ := false;
  call_annotations _ := [];
|}.

Definition start : world := {| self := Injector_init; heap := []; calls := [] |}.

(** Only the service that needs itself is registered. *)
Definition early_cycle : world :=
register_all py [RegisterScoped EarlyCycleService EarlyCycleServiceImpl] start.

(** The diamond with the four scoped bindings; [E] is missing. *)
Definition broken_diamond : world :=
register_all py
  [RegisterScoped A AImpl; RegisterScoped B BImpl;
   RegisterScoped C CImpl; RegisterScoped D DImpl] start.

End Variants.

(** * Properties *)

#[local] Set Warnings "-clear-no-such-hyp".

(** ** The monad *)

Global Instance extends_preorder : PreOrder extends.
Proof.
  split.
  - by intros w.
  - intros w1 w2 w3 (? & ? & ?) (? & ? & ?).
    split_and!; [congruence.. | by etrans].
Qed.

Lemma bind_extends {A B} (m : M A) (f : A → M B) w :
  extends w (m w).2 →
  (∀ a w', extends w w' → extends w' (f a w').2) →
  extends w ((m ≫= f) w).2.
Proof.
  intros Hm Hf. unfold mbind, M_bind.
  destruct (m w) as [[a| |] w'] eqn:E; simpl in *; try done.
  etrans; [exact Hm|]. by apply Hf.
Qed.

Lemma for_each_extends {A S} (items : list A) (body : A → S → M S) s w :
  (∀ x s w, x ∈ items → extends w (body x s w).2) →
  extends w (for_each items body s w).2.
Proof.
  revert s w. induction items as [|x items IH]; intros s w Hbody; simpl.
  - done.
  - apply bind_extends.
    + apply Hbody. left.
    + intros s' w' _. apply IH. intros ????. apply Hbody. by right.
Qed.

Section Properties.
Context (py : Host).

Implicit Types (w : world) (inj : Injector) (I J : type).

Lemma reading_extends {A} (f : Injector → outcome A) w :
  extends w (reading f w).2.
Proof. done. Qed.

Lemma construct_extends impl kwargs w : extends w (construct impl kwargs w).2.
Proof. split_and!; simpl; try done. by apply prefix_app_r. Qed.

Lemma bind_parameter_extends (rec : type → M Any) p kwargs w :
  (∀ dep w, extends w (rec dep w).2) →
  extends w (bind_parameter py rec p kwargs w).2.
Proof.
  intros Hrec. destruct p as [n a]. unfold bind_parameter.
  case_decide; [done|].
  apply bind_extends; [apply reading_extends|]. intros dep w1 _.
  apply bind_extends; [apply Hrec|]. by intros.
Qed.

Lemma resolve_extends fuel I stack w :
  extends w (resolve py fuel I stack w).2.
Proof.
  revert I stack w. induction fuel as [|fuel IH]; intros I stack w; [done|].
  cbn [resolve]. apply bind_extends; [apply reading_extends|].
  intros [impl|cls addr] w1 _; [|done].
  destruct (on_stack stack I); [done|].
  apply bind_extends.
  - apply for_each_extends. intros p kwargs w2 _.
    apply bind_parameter_extends. intros; apply IH.
  - intros kwargs w2 _. apply construct_extends.
Qed.

Lemma resolve_callable_extends fuel fn w :
  extends w (resolve_callable py fuel fn w).2.
Proof.
  unfold resolve_callable. destruct (callable py fn); simpl; [|done].
  apply bind_extends; [|by intros].
  apply for_each_extends. intros p kwargs w2 _.
  apply bind_parameter_extends. intros; apply resolve_extends.
Qed.

(** C8: a call of [resolve] or of [resolve_callable], whatever its
    outcome, leaves [self] as it was: the [interfaces] index, the scoped
    table and the singleton table are unchanged. *)
Theorem resolution_preserves_registry fuel I stack fn w :
  let after_resolve := (resolve py fuel I stack w).2 in
  let after_callable := (resolve_callable py fuel fn w).2 in
  (interfaces (self after_resolve) = interfaces (self w) ∧
   scoped_services (self after_resolve) = scoped_services (self w) ∧
   singleton_services (self after_resolve) = singleton_services (self w)) ∧
  (interfaces (self after_callable) = interfaces (self w) ∧
   scoped_services (self after_callable) = scoped_services (self w) ∧
   singleton_services (self after_callable) = singleton_services (self w)).
Proof.
  cbv zeta.
  destruct (resolve_extends fuel I stack w) as [-> _].
  by destruct (resolve_callable_extends fuel fn w) as [-> _].
Qed.

(** ** Registration *)

(** The three ways a registration ends. *)
Lemma register_cases r w :
  let n := __name__ py (registered_interface r) in
  (conforms py r = false ∧ ∃ impl,
     register py r w = (Raise (ImplementationInterfaceMismatchError impl n), w)) ∨
  (conforms py r = true ∧ is_Some (interfaces (self w) !! n) ∧
     register py r w = (Raise (ImplementedError n), w)) ∨
  (conforms py r = true ∧ interfaces (self w) !! n = None ∧
     register py r w =
       (Return (), {| self := add_binding py r (self w);
                      heap := heap w; calls := calls w |})).
Proof.
  destruct r as [I impl|I s]; simpl;
    unfold register_scoped, register_singleton.
  - destruct (issubclass py impl I); simpl; [right|left; eauto].
    unfold mbind, M_bind, _register_interface.
    destruct (interfaces (self w) !! __name__ py I) eqn:E; [left|right]; eauto.
  - destruct (isinstance py s I); simpl; [right|left; eauto].
    unfold mbind, M_bind, _register_interface.
    destruct (interfaces (self w) !! __name__ py I) eqn:E; [left|right]; eauto.
Qed.

(** A registration that raises changes nothing. *)
Lemma register_raise r w e : (register py r w).1 = Raise e → (register py r w).2 = w.
Proof.
  destruct (register_cases r w) as [(_ & ? & ->)|[(_ & _ & ->)|(_ & _ & ->)]];
    done.
Qed.

Lemma bound_names inj t :
  bound inj t → __name__ py t ∈ scoped_names py inj ++ singleton_names py inj.
Proof.
  unfold bound, scoped_names, singleton_names. rewrite elem_of_app.
  intros [H|H]; [left|right];
    apply list_elem_of_fmap in H as ([k v] & -> & H);
    apply list_elem_of_fmap; by exists (k, v).
Qed.

Lemma names_bound inj n :
  n ∈ scoped_names py inj ++ singleton_names py inj →
  ∃ t, __name__ py t = n ∧ bound inj t.
Proof.
  unfold bound, scoped_names, singleton_names. rewrite elem_of_app.
  intros [H|H]; apply list_elem_of_fmap in H as ([k v] & -> & H);
    exists k; (split; [done|]); [left|right];
    apply list_elem_of_fmap; by exists (k, v).
Qed.

Lemma consistent_init : consistent py Injector_init.
Proof.
  split; [constructor|]. intros n t. simpl. rewrite lookup_empty.
  split; [done|].
  intros [_ [H|H]]; simpl in H; by apply elem_of_nil in H.
Qed.

Lemma bound_add_binding r inj t :
  bound (add_binding py r inj) t ↔ bound inj t ∨ t = registered_interface r.
Proof.
  unfold bound. destruct r as [I impl|I s]; simpl;
    rewrite fmap_app, elem_of_app; simpl; rewrite list_elem_of_singleton;
    tauto.
Qed.

Lemma names_add_binding r inj :
  scoped_names py (add_binding py r inj) ++ singleton_names py (add_binding py r inj)
  ≡ₚ __name__ py (registered_interface r)
       :: (scoped_names py inj ++ singleton_names py inj).
Proof.
  unfold scoped_names, singleton_names. destruct r as [I impl|I s]; simpl.
  - rewrite fmap_app. simpl. rewrite <- app_assoc. simpl.
    by rewrite <- Permutation_middle.
  - rewrite fmap_app. simpl. rewrite app_assoc.
    by rewrite <- Permutation_cons_append.
Qed.

Lemma consistent_add_binding r inj :
  interfaces inj !! __name__ py (registered_interface r) = None →
  consistent py inj → consistent py (add_binding py r inj).
Proof.
  intros Hfree [Hnodup Hindex]. split.
  - rewrite names_add_binding. constructor; [|done].
    intros (t & Hn & Hb)%names_bound.
    assert (interfaces inj !! __name__ py (registered_interface r) = Some t)
      as Hin by by apply Hindex.
    congruence.
  - intros n t. rewrite bound_add_binding.
    assert (interfaces (add_binding py r inj)
            = <[__name__ py (registered_interface r) := registered_interface r]>
                (interfaces inj)) as -> by by destruct r.
    destruct (decide (__name__ py (registered_interface r) = n)) as [<-|Hne].
    + rewrite lookup_insert_eq. split.
      * intros [= <-]. auto.
      * intros (Hn & [Hb| ->]); [|done].
        assert (interfaces inj !! __name__ py (registered_interface r) = Some t)
          as Hin by by apply Hindex.
        congruence.
    + rewrite lookup_insert_ne by done. rewrite Hindex. split.
      * intros [? ?]; auto.
      * intros (Hn & [Hb| ->]); [done|]. congruence.
Qed.

Lemma consistent_register r w :
  consistent py (self w) → consistent py (self (register py r w).2).
Proof.
  intros Hc.
  destruct (register_cases r w) as [(_ & ? & ->)|[(_ & _ & ->)|(_ & ? & ->)]];
    try done.
  simpl. by apply consistent_add_binding.
Qed.

Lemma consistent_register_all rs w :
  consistent py (self w) → consistent py (self (register_all py rs w)).
Proof.
  revert w. induction rs as [|r rs IH]; intros w Hc; simpl; [done|].
  by apply IH, consistent_register.
Qed.

Lemma consistent_reachable rs h c :
  consistent py (self (register_all py rs (fresh h c))).
Proof. apply consistent_register_all, consistent_init. Qed.

(** C9: in every state that a sequence of calls of [register_scoped] and
    [register_singleton] reaches from a new injector, the names of the
    interfaces in the scoped table are pairwise distinct, so are those in
    the singleton table, no name is in both, and the keys of the index
    [interfaces] are those names; and a registration that raises leaves
    the whole state as it was. *)
Theorem registry_consistency rs h c :
  let w := register_all py rs (fresh h c) in
  NoDup (scoped_names py (self w)) ∧
  NoDup (singleton_names py (self w)) ∧
  (∀ n, n ∈ scoped_names py (self w) → n ∉ singleton_names py (self w)) ∧
  dom (interfaces (self w))
    = list_to_set (scoped_names py (self w))
        ∪ list_to_set (singleton_names py (self w)) ∧
  (∀ r e, (register py r w).1 = Raise e → (register py r w).2 = w).
Proof.
  intros w. destruct (consistent_reachable rs h c) as [Hnodup Hindex].
  fold w in Hnodup, Hindex.
  apply NoDup_app in Hnodup as (Hs & Hdisj & Hg).
  split_and!; try done.
  - apply set_eq. intros n.
    rewrite elem_of_dom, elem_of_union, !elem_of_list_to_set, <- elem_of_app.
    split.
    + intros [t Ht]. apply Hindex in Ht as [<- Hb]. by apply bound_names.
    + intros (t & <- & Hb)%names_bound. exists t. by apply Hindex.
  - intros r e. apply register_raise.
Qed.

(** ** Looking a binding up *)

Lemma find_service_None {V} (services : list (type * V)) I :
  find_service services I = None ↔ I ∉ services.*1.
Proof.
  induction services as [|[k v] services IH]; simpl.
  - split; [intros _; apply not_elem_of_nil|done].
  - rewrite not_elem_of_cons. simpl. case_decide; [|rewrite IH]; intuition congruence.
Qed.

Lemma find_service_Some {V} (services : list (type * V)) I v :
  find_service services I = Some v → (I, v) ∈ services.
Proof.
  induction services as [|[k x] services IH]; simpl; [done|].
  case_decide; [intros [= ->]; subst; left|right; auto].
Qed.

Lemma find_service_app {V} (services more : list (type * V)) I :
  find_service (services ++ more) I =
    match find_service services I with
    | Some v => Some v
    | None => find_service more I
    end.
Proof.
  induction services as [|[k x] services IH]; simpl; [done|].
  by case_decide.
Qed.

Lemma implementation_bound inj I v :
  implementation py inj I = Return v → bound inj I.
Proof.
  unfold implementation, bound.
  destruct (find_service (scoped_services inj) I) as [tv|] eqn:E1.
  { intros _. left. apply find_service_Some in E1.
    apply list_elem_of_fmap. by exists (I, tv). }
  destruct (find_service (singleton_services inj) I) as [av|] eqn:E2; [|done].
  intros _. right. apply find_service_Some in E2.
  apply list_elem_of_fmap. by exists (I, av).
Qed.

Lemma implementation_unbound inj I :
  ¬ bound inj I ↔
  implementation py inj I = Raise (UnimplementedError (__name__ py I)).
Proof.
  unfold implementation, bound. split.
  - intros H.
    assert (find_service (scoped_services inj) I = None) as ->
      by (apply find_service_None; tauto).
    assert (find_service (singleton_services inj) I = None) as ->
      by (apply find_service_None; tauto).
    done.
  - destruct (find_service (scoped_services inj) I) eqn:E1; [done|].
    destruct (find_service (singleton_services inj) I) eqn:E2; [done|].
    apply find_service_None in E1, E2. tauto.
Qed.

(** Once the name of [I] is in the index, no registration changes what
    the tables hold for [I]. *)
Lemma register_keeps_binding r w I :
  is_Some (interfaces (self w) !! __name__ py I) →
  let w' := (register py r w).2 in
  interfaces (self w') !! __name__ py I = interfaces (self w) !! __name__ py I ∧
  find_service (scoped_services (self w')) I
    = find_service (scoped_services (self w)) I ∧
  find_service (singleton_services (self w')) I
    = find_service (singleton_services (self w)) I.
Proof.
  intros Hin w'. subst w'.
  destruct (register_cases r w) as [(_ & ? & ->)|[(_ & _ & ->)|(_ & Hfree & ->)]];
    try done.
  assert (__name__ py (registered_interface r) ≠ __name__ py I) as Hnn.
  { intros E. rewrite E in Hfree. rewrite Hfree in Hin. by destruct Hin. }
  assert (registered_interface r ≠ I) as Hne by congruence.
  destruct r as [K impl|K s]; simpl in *;
    rewrite lookup_insert_ne by done; rewrite find_service_app; simpl;
    rewrite decide_False by done;
    split_and!; try done; by destruct (find_service _ I).
Qed.

Lemma register_all_keeps_binding rs w I :
  is_Some (interfaces (self w) !! __name__ py I) →
  let w' := register_all py rs w in
  interfaces (self w') !! __name__ py I = interfaces (self w) !! __name__ py I ∧
  find_service (scoped_services (self w')) I
    = find_service (scoped_services (self w)) I ∧
  find_service (singleton_services (self w')) I
    = find_service (singleton_services (self w)) I.
Proof.
  revert w. induction rs as [|r rs IH]; intros w Hin; simpl; [done|].
  destruct (register_keeps_binding r w I Hin) as (E1 & E2 & E3).
  destruct (IH (register py r w).2) as (F1 & F2 & F3).
  { by rewrite E1. }
  split_and!; congruence.
Qed.

(** What a successful registration leaves in the tables. *)
Lemma register_binding r w :
  consistent py (self w) →
  (register py r w).1 = Return () →
  let I := registered_interface r in
  let w' := (register py r w).2 in
  conforms py r = true ∧
  interfaces (self w) !! __name__ py I = None ∧
  interfaces (self w') !! __name__ py I = Some I ∧
  match r with
  | RegisterScoped _ impl =>
      find_service (scoped_services (self w')) I = Some impl
  | RegisterSingleton _ s =>
      find_service (scoped_services (self w')) I = None ∧
      find_service (singleton_services (self w')) I = Some s
  end.
Proof.
  intros [_ Hindex] Hok I w'. subst I w'.
  destruct (register_cases r w) as [(_ & ? & E)|[(_ & _ & E)|(Hc & Hfree & E)]];
    rewrite E in Hok; try done. rewrite E. clear E Hok.
  assert (¬ bound (self w) (registered_interface r)) as Hnb.
  { intros Hb.
    assert (interfaces (self w) !! __name__ py (registered_interface r)
            = Some (registered_interface r)) by by apply Hindex.
    congruence. }
  split_and!; [done..| |].
  { destruct r; simpl; by rewrite lookup_insert_eq. }
  unfold bound in Hnb.
  destruct r as [K impl|K s]; simpl in *; rewrite ?find_service_app; simpl;
    rewrite ?decide_True by done.
  - assert (find_service (scoped_services (self w)) K = None) as ->
      by (apply find_service_None; tauto). done.
  - assert (find_service (scoped_services (self w)) K = None) as ->
      by (apply find_service_None; tauto).
    assert (find_service (singleton_services (self w)) K = None) as ->
      by (apply find_service_None; tauto). done.
Qed.

(** C4, as amended: once a registration of [I] has succeeded, every later
    registration of [I] that passes its conformance check, scoped or
    singleton, raises [ImplementedError] and changes nothing. *)
Theorem registration_is_one_shot r1 rs r2 w :
  registered_interface r2 = registered_interface r1 →
  (register py r1 w).1 = Return () →
  conforms py r2 = true →
  let w' := register_all py rs (register py r1 w).2 in
  register py r2 w'
    = (Raise (ImplementedError (__name__ py (registered_interface r1))), w').
Proof.
  intros HI Hok Hconf w'.
  assert (is_Some (interfaces (self (register py r1 w).2)
                     !! __name__ py (registered_interface r1))) as Hin.
  { destruct (register_cases r1 w)
      as [(_ & ? & E)|[(_ & _ & E)|(_ & _ & E)]]; rewrite E in Hok |- *;
      try done.
    destruct r1; simpl; rewrite lookup_insert_eq; eauto. }
  destruct (register_all_keeps_binding rs _ _ Hin) as (E & _). fold w' in E.
  rewrite <- E in Hin.
  destruct (register_cases r2 w')
    as [(Hc & _)|[(_ & _ & ->)|(_ & Hfree & _)]].
  - congruence.
  - by rewrite HI.
  - rewrite HI in Hfree. rewrite Hfree in Hin. by destruct Hin.
Qed.

(** ** Singletons *)

(** C5, as amended: when [register_singleton] has bound [I] to a value [s]
    that is not a class object, every later call of [resolve] for [I]
    returns [s] itself and leaves the world as it was: it needs no
    recursive call (one unit of fuel is enough), it makes no cycle check
    (the stack is arbitrary) and it calls no constructor (the heap is
    unchanged). *)
Theorem singleton_identity rs h c I s rs' w fuel stack :
  let w0 := register_all py rs (fresh h c) in
  (register_singleton py I s w0).1 = Return () →
  is_type s = false →
  self w = self (register_all py rs' (register_singleton py I s w0).2) →
  resolve py (S fuel) I stack w = (Return s, w).
Proof.
  intros w0 Hok Hs Hself.
  destruct (register_binding (RegisterSingleton I s) w0)
    as (_ & _ & Hin & Hsc & Hsg); [apply consistent_reachable|done|].
  simpl in Hin, Hsc, Hsg.
  destruct (register_all_keeps_binding rs' _ I (mk_is_Some _ _ Hin))
    as (_ & E1 & E2).
  rewrite Hsc in E1. rewrite Hsg in E2. rewrite <- Hself in E1, E2.
  cbn [resolve]. unfold mbind, M_bind, reading, implementation.
  rewrite E1, E2. by destruct s.
Qed.

(** ** The outcome of [resolve] is its verdict *)

Lemma resolve_S fuel I stack w :
  resolve py (S fuel) I stack w =
    match implementation py (self w) I with
    | Return (VInst cls addr) => (Return (VInst cls addr), w)
    | Return (VType impl) =>
        if on_stack stack I then
          (Raise (CyclicDependencyError (__name__ py I) (stack_names py stack)), w)
        else
          (for_each (init_annotations py impl)
             (bind_parameter py
                (λ dependency, resolve py fuel dependency (Some (push stack I))))
             ∅ ≫= construct impl) w
    | Raise e => (Raise e, w)
    | OutOfFuel => (OutOfFuel, w)
    end.
Proof.
  cbn [resolve]. unfold mbind at 1, M_bind at 1, reading.
  destruct (implementation py (self w) I) as [[impl|cls addr]| |]; try done.
  by destruct (on_stack stack I).
Qed.

Lemma for_each_verdict (rec : type → M Any) (check : type → outcome unit)
    inj items kwargs w :
  self w = inj →
  (∀ dep w', self w' = inj →
     shape (rec dep w').1 = check dep ∧ self (rec dep w').2 = inj) →
  shape (for_each items (bind_parameter py rec) kwargs w).1
    = first_failure (check_parameter py inj check) items.
Proof.
  intros Hself Hrec. revert kwargs w Hself.
  induction items as [|[p a] items IH]; intros kwargs w Hself; [done|].
  cbn [for_each first_failure check_parameter bind_parameter].
  case_decide.
  { unfold mbind, M_bind, mret, M_ret. by apply IH. }
  unfold mbind, M_bind, reading. rewrite Hself.
  destruct (interface py inj a) as [dep| |]; try done.
  destruct (Hrec dep w Hself) as [Hshape Hself'].
  destruct (rec dep w) as [[v| |] w1]; simpl in *; rewrite <- Hshape; try done.
  unfold mret, M_ret. by apply IH.
Qed.

Lemma resolve_verdict fuel I stack w :
  shape (resolve py fuel I stack w).1 = verdict py fuel (self w) I stack.
Proof.
  revert I stack w. induction fuel as [|fuel IH]; intros I stack w; [done|].
  rewrite resolve_S. cbn [verdict].
  destruct (implementation py (self w) I) as [[impl|cls addr]| |]; try done.
  destruct (on_stack stack I); [done|].
  rewrite <- (for_each_verdict
                (λ dependency, resolve py fuel dependency (Some (push stack I)))
                _ (self w) _ ∅ w eq_refl).
  - unfold mbind, M_bind.
    by destruct (for_each _ _ _ w) as [[kwargs| |] w1].
  - intros dep w' Hself. rewrite IH, Hself. split; [done|].
    by destruct (resolve_extends fuel dep (Some (push stack I)) w') as [-> _].
Qed.

(** ** The recursion ends *)

Lemma first_failure_Return {A} (f : A → outcome unit) items :
  first_failure f items = Return () ↔ ∀ x, x ∈ items → f x = Return ().
Proof.
  induction items as [|x items IH]; simpl.
  - split; [|done]. intros _ x Hx. by apply elem_of_nil in Hx.
  - destruct (f x) as [[]| |] eqn:E.
    + rewrite IH. split.
      * intros H y [->|Hy]%elem_of_cons; auto.
      * intros H y Hy. apply H. by right.
    + split; [done|]. intros H. specialize (H x). rewrite E in H.
      apply H. left.
    + split; [done|]. intros H. specialize (H x). rewrite E in H.
      apply H. left.
Qed.

Lemma first_failure_origin {A} (f : A → outcome unit) items o :
  first_failure f items = o → o ≠ Return () → ∃ x, x ∈ items ∧ f x = o.
Proof.
  induction items as [|x items IH]; simpl; [congruence|].
  destruct (f x) as [[]| |] eqn:E.
  - intros Ho Hne. destruct (IH Ho Hne) as (y & Hy & Hfy).
    exists y. split; [by right|done].
  - intros <- _. exists x. split; [left|done].
  - intros <- _. exists x. split; [left|done].
Qed.

Lemma implementation_not_OutOfFuel inj I : implementation py inj I ≠ OutOfFuel.
Proof.
  unfold implementation.
  destruct (find_service (scoped_services inj) I); [done|].
  by destruct (find_service (singleton_services inj) I).
Qed.

Lemma interface_known inj a t : interface py inj a = Return t → known inj t.
Proof.
  unfold interface, known. destruct a as [n|c|]; [| |done].
  - destruct (interfaces inj !! n) eqn:E; [|done]. intros [= <-]. eauto.
  - destruct (interfaces inj !! __name__ py c) eqn:E; [|done].
    intros [= <-]. eauto.
Qed.

Lemma interface_not_OutOfFuel inj a : interface py inj a ≠ OutOfFuel.
Proof.
  unfold interface. destruct a as [n|c|]; [| |done].
  - by destruct (interfaces inj !! n).
  - by destruct (interfaces inj !! __name__ py c).
Qed.

(** Pigeonhole: distinct values of the index are no more than its entries. *)
Lemma known_length inj (l : list type) :
  NoDup l → Forall (known inj) l → length l ≤ size (interfaces inj).
Proof.
  intros Hnodup Hknown.
  rewrite <- length_map_to_list, <- (length_fmap snd).
  apply submseteq_length, NoDup_submseteq; [done|].
  intros t Ht. rewrite Forall_forall in Hknown.
  destruct (Hknown t Ht) as [n Hn].
  apply list_elem_of_fmap. exists (n, t). split; [done|].
  by apply elem_of_map_to_list.
Qed.

Lemma verdict_None fuel inj I :
  verdict py fuel inj I None = verdict py fuel inj I (Some []).
Proof. by destruct fuel. Qed.

Lemma verdict_fuel fuel inj I (l : list type) :
  NoDup l → Forall (known inj) (tail l) → (l ≠ [] → known inj I) →
  enough inj ≤ fuel + length l →
  verdict py fuel inj I (Some l) ≠ OutOfFuel.
Proof.
  unfold enough. revert I l.
  induction fuel as [|fuel IH]; intros I l Hnodup Hknown HI Hfuel.
  - assert (NoDup (tail l)) as Hnd by (destruct l; [done|by inversion Hnodup]).
    pose proof (known_length inj (tail l) Hnd Hknown) as Hlen.
    destruct l; simpl in *; lia.
  - cbn [verdict].
    destruct (implementation py inj I) as [[impl|cls addr]| |] eqn:Eimpl;
      try done; [|by apply implementation_not_OutOfFuel in Eimpl].
    unfold on_stack. case_bool_decide as Hin; [done|].
    intros Hout.
    apply first_failure_origin in Hout as ([p a] & _ & Hpar); [|done].
    unfold check_parameter in Hpar. case_decide; [done|].
    destruct (interface py inj a) as [dep| |] eqn:Edep; [|done|];
      [|by apply interface_not_OutOfFuel in Edep].
    revert Hpar. apply IH.
    + apply NoDup_app. split_and!; [done| |apply NoDup_singleton].
      intros x Hx ->%list_elem_of_singleton. done.
    + destruct l as [|root l]; simpl; [constructor|].
      apply Forall_app. split; [done|]. apply Forall_singleton, HI. done.
    + intros _. by eapply interface_known.
    + simpl. rewrite length_app. simpl. lia.
Qed.

(** With fuel [enough], a call of [resolve] from the top does not run out
    of fuel: it returns or it raises. *)
Lemma resolve_terminates fuel I w :
  enough (self w) ≤ fuel → (resolve py fuel I None w).1 ≠ OutOfFuel.
Proof.
  intros Hfuel Hout.
  pose proof (resolve_verdict fuel I None w) as Hv. rewrite Hout in Hv.
  symmetry in Hv. rewrite verdict_None in Hv. revert Hv.
  apply verdict_fuel; [constructor|constructor|done|simpl; lia].
Qed.

(** ** Where an exception of [resolve] comes from *)

Lemma implementation_raise inj I e :
  implementation py inj I = Raise e →
  e = UnimplementedError (__name__ py I) ∧ ¬ bound inj I.
Proof.
  intros H. assert (e = UnimplementedError (__name__ py I)) as ->.
  { unfold implementation in H.
    destruct (find_service (scoped_services inj) I); [done|].
    destruct (find_service (singleton_services inj) I); [done|]. congruence. }
  split; [done|]. by apply implementation_unbound.
Qed.

Lemma interface_raise inj a e :
  interface py inj a = Raise e →
  (a = AOther ∧ e = TypeError) ∨
  (∃ n, annotation_name py a = Some n ∧ interfaces inj !! n = None ∧
        e = UnimplementedError n).
Proof.
  unfold interface. destruct a as [n|c|]; simpl.
  - destruct (interfaces inj !! n) eqn:E; [done|]. intros [= <-]. right. eauto.
  - destruct (interfaces inj !! __name__ py c) eqn:E; [done|].
    intros [= <-]. right. eauto.
  - intros [= <-]. by left.
Qed.

Lemma check_parameter_inv inj check p a o :
  check_parameter py inj check (p, a) = o → o ≠ Return () →
  p ≠ "return" ∧
  ((∃ e, interface py inj a = Raise e ∧ o = Raise e) ∨
   (∃ dep, interface py inj a = Return dep ∧ check dep = o)).
Proof.
  unfold check_parameter. case_decide; [congruence|].
  intros Ho Hne. split; [done|].
  destruct (interface py inj a) as [dep| |] eqn:E; eauto.
  by apply interface_not_OutOfFuel in E.
Qed.

(** An exception other than [CyclicDependencyError] is raised by a lookup,
    of a binding or of an annotation, at an interface that [I] reaches. *)
Lemma verdict_raise_origin fuel inj I stack e :
  verdict py fuel inj I stack = Raise e →
  (∃ n ns, e = CyclicDependencyError n ns) ∨
  ∃ J, rtc (depends py inj) I J ∧
    (implementation py inj J = Raise e ∨
     ∃ a, parameter_of py inj J a ∧ interface py inj a = Raise e).
Proof.
  revert I stack. induction fuel as [|fuel IH]; intros I stack; [done|].
  cbn [verdict].
  destruct (implementation py inj I) as [[impl|cls addr]| |] eqn:Eimpl; try done.
  - destruct (on_stack stack I); [intros [= <-]; left; eauto|].
    intros Hv. apply first_failure_origin in Hv as ([p a] & Hpa & Hv); [|done].
    apply check_parameter_inv in Hv as (Hp & [(e' & Ha & [= <-])|(dep & Ha & Hv)]);
      [| |done].
    + right. exists I. split; [done|]. right. exists a. split; [|done].
      by exists impl, p.
    + apply IH in Hv as [?|(J & Hrtc & HJ)]; [by left|right].
      exists J. split; [|done]. eapply rtc_l; [|done].
      exists a. split; [by exists impl, p|done].
  - intros [= <-]. right. exists I. split; [done|by left].
Qed.

(** The stack that a [CyclicDependencyError] carries is the stack of the
    call, followed by a path of the dependency graph that starts at [I]
    and ends at an interface that needs one of the stack again. *)
Lemma verdict_cyclic_chain fuel inj I (l : list type) n ns :
  verdict py fuel inj I (Some l) = Raise (CyclicDependencyError n ns) →
  ∃ l' J, n = __name__ py J ∧ ns = __name__ py <$> (l ++ l') ∧
          chain py inj I l' J ∧ J ∈ l ++ l'.
Proof.
  revert I l. induction fuel as [|fuel IH]; intros I l; [done|].
  cbn [verdict].
  destruct (implementation py inj I) as [[impl|cls addr]| |] eqn:Eimpl; try done.
  - unfold on_stack. case_bool_decide as Hin.
    + intros [= <- <-]. exists [], I. rewrite app_nil_r. done.
    + intros Hv. apply first_failure_origin in Hv as ([p a] & Hpa & Hv); [|done].
      apply check_parameter_inv in Hv as (Hp & [(e' & Ha & [= <-])|(dep & Ha & Hv)]);
        [| |done].
      * apply interface_raise in Ha as [[_ ?]|(? & _ & _ & ?)]; done.
      * apply IH in Hv as (l' & J & -> & -> & Hchain & HJ).
        exists (I :: l'), J. simpl in *. rewrite <- app_assoc in *. simpl in *.
        split_and!; try done.
        exists dep. split; [|done]. exists a. split; [by exists impl, p|done].
  - intros [= ->]. by apply implementation_raise in Eimpl as [? _].
Qed.

(** When [resolve] returns, no interface that [I] reaches through scoped
    bindings is on the stack. *)
Lemma verdict_Return_acyclic fuel inj I (l : list type) J impl :
  verdict py fuel inj I (Some l) = Return () →
  rtc (depends py inj) I J →
  implementation py inj J = Return (VType impl) →
  J ∉ l.
Proof.
  revert I l. induction fuel as [|fuel IH]; intros I l; [done|].
  intros Hv Hrtc HJ. cbn [verdict] in Hv.
  apply rtc_inv in Hrtc as [->|(K & (a & (impl' & p & HI & Hpa & Hp) & Ha) & Hrtc)].
  - rewrite HJ in Hv. unfold on_stack in Hv.
    case_bool_decide as Hin; [done|exact Hin].
  - rewrite HI in Hv. destruct (on_stack (Some l) I); [done|].
    rewrite first_failure_Return in Hv. specialize (Hv _ Hpa).
    unfold check_parameter in Hv. rewrite decide_False, Ha in Hv by done.
    specialize (IH _ _ Hv Hrtc HJ). simpl in IH.
    rewrite elem_of_app in IH. tauto.
Qed.

(** When [resolve] returns, every annotation of a constructor that [I]
    needs, directly or through other interfaces, names an interface of the
    index. *)
Lemma verdict_Return_closed fuel inj I stack J a :
  verdict py fuel inj I stack = Return () →
  rtc (depends py inj) I J →
  parameter_of py inj J a →
  ∃ K, interface py inj a = Return K.
Proof.
  revert I stack. induction fuel as [|fuel IH]; intros I stack; [done|].
  intros Hv Hrtc HJ. cbn [verdict] in Hv.
  apply rtc_inv in Hrtc as [->|(K & (b & (impl & p & HI & Hpb & Hp) & Hb) & Hrtc)].
  - destruct HJ as (impl & p & HI & Hpa & Hp). rewrite HI in Hv.
    destruct (on_stack stack J); [done|].
    rewrite first_failure_Return in Hv. specialize (Hv _ Hpa).
    unfold check_parameter in Hv. rewrite decide_False in Hv by done.
    destruct (interface py inj a) as [K| |]; [by exists K|done..].
  - rewrite HI in Hv. destruct (on_stack stack I); [done|].
    rewrite first_failure_Return in Hv. specialize (Hv _ Hpb).
    unfold check_parameter in Hv. rewrite decide_False, Hb in Hv by done.
    by apply (IH _ _ Hv Hrtc).
Qed.

Lemma tc_first_step {A} (R : relation A) x z :
  tc R x z → ∃ y, R x y ∧ rtc R y z.
Proof.
  destruct 1 as [x z Hxz|x y z Hxy Hyz].
  - exists z. by split.
  - exists y. split; [done|]. by apply tc_rtc.
Qed.

Lemma verdict_Return_no_cycle fuel inj I (l : list type) :
  verdict py fuel inj I (Some l) = Return () → ¬ tc (depends py inj) I I.
Proof.
  intros Hv (K & HIK & HKI)%tc_first_step.
  destruct HIK as (a & (impl & p & HI & Hpa & Hp) & Ha).
  destruct fuel as [|fuel]; [done|]. cbn [verdict] in Hv. rewrite HI in Hv.
  destruct (on_stack (Some l) I); [done|].
  rewrite first_failure_Return in Hv. specialize (Hv _ Hpa).
  unfold check_parameter in Hv. rewrite decide_False, Ha in Hv by done.
  apply (verdict_Return_acyclic _ _ _ _ _ _ Hv HKI HI).
  simpl. apply elem_of_app. right. left.
Qed.

Lemma clear_step_depends inj I J :
  clear_step py inj I J → depends py inj I J.
Proof.
  intros (impl & before & p & a & after & HI & Hanns & Hp & Ha & _).
  exists a. split; [|done]. exists impl, p. split_and!; [done| |done].
  rewrite Hanns. apply elem_of_app. right. left.
Qed.

Lemma closed_verdict inj K fuel stack :
  closed py inj K →
  verdict py fuel inj K stack = Return () ∨
  cyclic_or_out (verdict py fuel inj K stack).
Proof.
  intros Hclosed.
  destruct (verdict py fuel inj K stack) as [[]|e|] eqn:Hv;
    [by left| |right; by left].
  right. right.
  apply verdict_raise_origin in Hv as [(n & ns & ->)|(J & Hrtc & HJ)];
    [by eauto|].
  destruct (Hclosed J Hrtc) as [Hbound Hparams].
  destruct HJ as [HJ|(a & Ha & HJ)].
  - by apply implementation_raise in HJ as [_ ?].
  - destruct (Hparams a Ha) as [K' HK]. congruence.
Qed.

Lemma first_failure_before {A} (f : A → outcome unit) before x after :
  (∀ y, y ∈ before → f y = Return () ∨ cyclic_or_out (f y)) →
  cyclic_or_out (f x) →
  cyclic_or_out (first_failure f (before ++ x :: after)).
Proof.
  intros Hbefore Hx. induction before as [|y before IH]; simpl.
  - destruct Hx as [->|(n & ns & ->)]; [by left|right; eauto].
  - destruct (Hbefore y) as [->|[->|(n & ns & ->)]]; [left| | |].
    + apply IH. intros z Hz. apply Hbefore. by right.
    + by left.
    + right. eauto.
Qed.

Lemma clear_step_verdict inj X Y (l : list type) :
  clear_step py inj X Y →
  (∀ fuel, cyclic_or_out (verdict py fuel inj Y (Some (l ++ [X])))) →
  ∀ fuel, cyclic_or_out (verdict py fuel inj X (Some l)).
Proof.
  intros (impl & before & p & a & after & HX & Hanns & Hp & Ha & Hbefore) HY fuel.
  destruct fuel as [|fuel]; [by left|]. cbn [verdict]. rewrite HX.
  destruct (on_stack (Some l) X); [right; eauto|].
  rewrite Hanns. apply first_failure_before.
  - intros [q b] Hqb. unfold check_parameter. case_decide as Hq; [by left|].
    destruct (Hbefore q b) as (K & -> & HK).
    { unfold parameters. by apply list_elem_of_filter. }
    by apply closed_verdict.
  - unfold check_parameter. rewrite decide_False, Ha by done. apply HY.
Qed.

Lemma clear_path_verdict inj Y I impl (l : list type) :
  rtc (clear_step py inj) Y I →
  implementation py inj I = Return (VType impl) →
  I ∈ l →
  ∀ fuel, cyclic_or_out (verdict py fuel inj Y (Some l)).
Proof.
  intros Hpath HI. revert l.
  induction Hpath as [I|X Y I HXY _ IH]; intros l Hl.
  - intros [|fuel]; [by left|]. cbn [verdict]. rewrite HI.
    unfold on_stack. rewrite bool_decide_eq_true_2 by done. right. eauto.
  - apply (clear_step_verdict _ _ Y); [done|].
    apply IH; [done|]. apply elem_of_app. by left.
Qed.

(** C2, as amended: when the implementation bound to [I] needs [I] again,
    directly or through other interfaces, [resolve] for [I] does not
    return: it raises.  It raises [CyclicDependencyError] when no lookup
    can fail before the cycle closes, that is, when on a cycle from [I]
    back to [I] every parameter that comes before the one that leads on
    has only bound interfaces and registered names behind it.  When it
    raises [CyclicDependencyError], the error names an interface [J] and
    carries the chain of the recursive descent, from [I] on, each
    interface needing the next, the last one needing [J], which is in the
    chain already.  When it raises another exception, that is the
    exception of a lookup, of a binding or of an annotation, at an
    interface that [I] reaches. *)
Theorem cyclic_dependency_detected fuel I w :
  tc (depends py (self w)) I I →
  enough (self w) ≤ fuel →
  ∃ e w',
    resolve py fuel I None w = (Raise e, w') ∧
    (tc (clear_step py (self w)) I I → ∃ n ns, e = CyclicDependencyError n ns) ∧
    (∀ n ns, e = CyclicDependencyError n ns →
       ∃ l J, n = __name__ py J ∧ ns = __name__ py <$> l ∧
              chain py (self w) I l J ∧ J ∈ l) ∧
    ((∀ n ns, e ≠ CyclicDependencyError n ns) →
       ∃ J, rtc (depends py (self w)) I J ∧
         (implementation py (self w) J = Raise e ∨
          ∃ a, parameter_of py (self w) J a ∧
               interface py (self w) a = Raise e)).
Proof.
  intros Hcycle Hfuel.
  pose proof (resolve_verdict fuel I None w) as Hv.
  pose proof (resolve_terminates fuel I w Hfuel) as Hterm.
  rewrite verdict_None in Hv.
  destruct (resolve py fuel I None w) as [[v|e|] w']; simpl in *; [| |done].
  { symmetry in Hv. by apply verdict_Return_no_cycle in Hv. }
  exists e, w'. symmetry in Hv. split_and!; [done| | |].
  - intros (Y & HIY & HYI)%tc_first_step.
    assert (∃ impl, implementation py (self w) I = Return (VType impl))
      as [impl HI].
    { destruct HIY as (impl & _ & _ & _ & _ & HI & _). by exists impl. }
    assert (cyclic_or_out (verdict py fuel (self w) I (Some [])))
      as [Hout|(n & ns & Hn)].
    { apply (clear_step_verdict (self w) I Y []); [done|].
      apply (clear_path_verdict (self w) Y I impl); [done..|]. simpl. left. }
    + congruence.
    + rewrite Hv in Hn. injection Hn as ->. eauto.
  - intros n ns ->.
    apply verdict_cyclic_chain in Hv as (l & J & ? & ? & ? & ?).
    by exists l, J.
  - intros Hother.
    apply verdict_raise_origin in Hv as [(n & ns & ->)|?]; [|done].
    by destruct (Hother n ns).
Qed.


(** ** The objects that [resolve] builds *)

Lemma for_each_parameters (rec : type → M Any) anns kwargs w :
  for_each anns (bind_parameter py rec) kwargs w
  = for_each (parameters anns) (bind_parameter py rec) kwargs w.
Proof.
  revert kwargs w. induction anns as [|[p a] anns IH]; intros kwargs w; [done|].
  unfold parameters. rewrite filter_cons. cbn [fst].
  destruct (decide (p = "return")) as [->|Hp].
  - rewrite decide_False by (by intros []). cbn [for_each bind_parameter].
    rewrite decide_True by done. apply IH.
  - rewrite decide_True by done. cbn [for_each].
    unfold mbind, M_bind.
    destruct (bind_parameter py rec (p, a) kwargs w) as [[kwargs'| |] w'];
      try done.
Qed.

Lemma for_each_rule {A S} (Inv : S → world → Prop) (items : list A)
    (body : A → S → M S) s w s' w' :
  Inv s w →
  (∀ x s1 w1 s2 w2, x ∈ items → Inv s1 w1 →
     body x s1 w1 = (Return s2, w2) → Inv s2 w2) →
  for_each items body s w = (Return s', w') → Inv s' w'.
Proof.
  revert s w. induction items as [|x items IH]; intros s w Hinv Hbody; simpl.
  - unfold mret, M_ret. by intros [= <- <-].
  - unfold mbind, M_bind. destruct (body x s w) as [[s1| |] w1] eqn:E; try done.
    apply IH.
    + eapply Hbody; [left|done..].
    + intros y ?????. apply Hbody. by right.
Qed.

Lemma bind_parameter_Return (rec : type → M Any) p a kwargs w kwargs' w' :
  bind_parameter py rec (p, a) kwargs w = (Return kwargs', w') →
  (p = "return" ∧ kwargs' = kwargs ∧ w' = w) ∨
  (p ≠ "return" ∧ ∃ dep v,
     interface py (self w) a = Return dep ∧
     rec dep w = (Return v, w') ∧ kwargs' = <[p := v]> kwargs).
Proof.
  unfold bind_parameter. case_decide.
  { unfold mret, M_ret. intros [= <- <-]. by left. }
  unfold mbind, M_bind, reading.
  destruct (interface py (self w) a) as [dep| |]; try done.
  destruct (rec dep w) as [[v| |] w1] eqn:E; try done.
  unfold mret, M_ret. intros [= <- <-]. right. split; [done|]. by exists dep, v.
Qed.

(** What [resolve] returns: the singleton of [I], with the world as it was,
    or a new object, the last one of the objects built by the call, whose
    arguments are singletons or were built by this call too. *)
Lemma resolve_Return fuel I stack w v w' :
  resolve py fuel I stack w = (Return v, w') →
  (is_type v = false ∧ implementation py (self w) I = Return v ∧ w' = w) ∨
  (∃ impl kwargs h,
     implementation py (self w) I = Return (VType impl) ∧
     v = VInst impl (length (heap w ++ h)) ∧
     w' = {| self := self w;
             heap := (heap w ++ h) ++ [{| ob_type := impl; ob_kwargs := kwargs |}];
             calls := calls w |} ∧
     ∀ p u, kwargs !! p = Some u →
            singleton_or_new (self w) (length (heap w)) u).
Proof.
  revert I stack w v w'.
  induction fuel as [|fuel IH]; intros I stack w v w'; [done|].
  rewrite resolve_S.
  destruct (implementation py (self w) I) as [[impl|cls addr]| |] eqn:Eimpl;
    try done; [|intros [= <- <-]; by left].
  destruct (on_stack stack I); [done|].
  unfold mbind, M_bind.
  destruct (for_each _ _ _ w) as [[kwargs| |] w1] eqn:Eloop; try done.
  unfold construct. intros [= <- <-]. right.
  apply (for_each_rule
           (λ kwargs w1, extends w w1 ∧
              ∀ p u, kwargs !! p = Some u →
                     singleton_or_new (self w) (length (heap w)) u))
    in Eloop as [(Hself & Hcalls & h & Hheap) Hkwargs].
  - exists impl, kwargs, h. rewrite Hself, Hcalls, Hheap. done.
  - split; [done|]. intros p u. by rewrite lookup_empty.
  - intros [p a] kw wa kw' wb _ [Hext Hkw] Hbody.
    apply bind_parameter_Return
      in Hbody as [(_ & -> & ->)|(_ & dep & u & _ & Hrec & ->)]; [done|].
    assert (extends wa wb) as Hstep.
    { pose proof (resolve_extends fuel dep (Some (push stack I)) wa) as Hx.
      by rewrite Hrec in Hx. }
    split; [by etrans|].
    intros q u'. destruct (decide (p = q)) as [<-|Hne].
    + rewrite lookup_insert_eq. intros [= <-].
      destruct Hext as (Hself & _ & h & Hheap).
      apply IH in Hrec as [(Hu & Hrec & _)|(impl' & kw' & h' & _ & -> & _)].
      * left. rewrite Hself in Hrec. unfold implementation in Hrec.
        destruct (find_service (scoped_services (self w)) dep);
          [by destruct u; simplify_eq|].
        destruct (find_service (singleton_services (self w)) dep) eqn:E;
          [|done]. exists dep. congruence.
      * right. eexists _, _. split; [done|].
        rewrite Hheap, !length_app. lia.
    + rewrite lookup_insert_ne by done. apply Hkw.
Qed.

Lemma implementation_scoped inj I impl :
  find_service (scoped_services inj) I = Some impl →
  implementation py inj I = Return (VType impl).
Proof. unfold implementation. by intros ->. Qed.

(** The outcome of [resolve] does not depend on the heap: where it returns
    in one world, it returns in every world with the same registry. *)
Lemma resolve_Return_anywhere fuel I stack w v w' w2 :
  resolve py fuel I stack w = (Return v, w') →
  self w2 = self w →
  ∃ v2 w3, resolve py fuel I stack w2 = (Return v2, w3).
Proof.
  intros Hret Hself.
  pose proof (resolve_verdict fuel I stack w) as Hv.
  pose proof (resolve_verdict fuel I stack w2) as Hv2.
  rewrite Hret in Hv. rewrite Hself, <- Hv in Hv2.
  destruct (resolve py fuel I stack w2) as [[v2| |] w3]; try done. eauto.
Qed.

(** ** Scoped bindings *)


(** ** Evaluating [resolve] at a scoped binding *)

Lemma parameters_not_return (anns : annotations) p a :
  (p, a) ∈ parameters anns → p ≠ "return".
Proof. unfold parameters. by intros [? _]%list_elem_of_filter. Qed.

Lemma resolve_scoped fuel I stack impl w :
  find_service (scoped_services (self w)) I = Some impl →
  on_stack stack I = false →
  resolve py (S fuel) I stack w =
    (for_each (parameters (init_annotations py impl))
       (bind_parameter py
          (λ dependency, resolve py fuel dependency (Some (push stack I))))
       ∅ ≫= construct impl) w.
Proof.
  intros Hscoped%implementation_scoped Hstack.
  rewrite resolve_S, Hscoped, Hstack. unfold mbind, M_bind.
  by rewrite for_each_parameters.
Qed.

Lemma bind_parameter_step (rec : type → M Any) p a kwargs w dep :
  p ≠ "return" →
  interface py (self w) a = Return dep →
  bind_parameter py rec (p, a) kwargs w
  = (value ← rec dep; mret (<[p := value]> kwargs)) w.
Proof.
  intros Hp Ha. unfold bind_parameter. rewrite decide_False by done.
  unfold mbind at 1, M_bind at 1, reading. by rewrite Ha.
Qed.

(** An implementation whose constructor has no annotated parameter. *)
Lemma resolve_leaf fuel I stack impl w :
  find_service (scoped_services (self w)) I = Some impl →
  on_stack stack I = false →
  parameters (init_annotations py impl) = [] →
  resolve py (S fuel) I stack w = construct impl ∅ w.
Proof. intros ?? Hpar. rewrite (resolve_scoped _ _ _ impl), Hpar by done. done. Qed.

(** An implementation whose constructor has one annotated parameter. *)
Lemma resolve_unary fuel I stack impl p a dep w :
  find_service (scoped_services (self w)) I = Some impl →
  on_stack stack I = false →
  parameters (init_annotations py impl) = [(p, a)] →
  interface py (self w) a = Return dep →
  resolve py (S fuel) I stack w =
    (value ← resolve py fuel dep (Some (push stack I));
     construct impl {[p := value]}) w.
Proof.
  intros ?? Hpar Ha. rewrite (resolve_scoped _ _ _ impl), Hpar by done.
  assert (p ≠ "return") as Hp.
  { apply (parameters_not_return (init_annotations py impl) p a).
    rewrite Hpar. left. }
  cbn [for_each]. unfold mbind at 1 2, M_bind at 1 2.
  rewrite (bind_parameter_step _ _ _ _ _ dep) by done.
  unfold mbind, M_bind.
  by destruct (resolve py fuel dep (Some (push stack I)) w) as [[v| |] w1].
Qed.

(** An implementation whose constructor has two annotated parameters. *)
Lemma resolve_binary fuel I stack impl p1 a1 dep1 p2 a2 dep2 w :
  find_service (scoped_services (self w)) I = Some impl →
  on_stack stack I = false →
  parameters (init_annotations py impl) = [(p1, a1); (p2, a2)] →
  interface py (self w) a1 = Return dep1 →
  interface py (self w) a2 = Return dep2 →
  resolve py (S fuel) I stack w =
    (value1 ← resolve py fuel dep1 (Some (push stack I));
     value2 ← resolve py fuel dep2 (Some (push stack I));
     construct impl (<[p2 := value2]> {[p1 := value1]})) w.
Proof.
  intros ?? Hpar Ha1 Ha2. rewrite (resolve_scoped _ _ _ impl), Hpar by done.
  assert (p1 ≠ "return" ∧ p2 ≠ "return") as [Hp1 Hp2].
  { split.
    - apply (parameters_not_return (init_annotations py impl) p1 a1).
      rewrite Hpar. left.
    - apply (parameters_not_return (init_annotations py impl) p2 a2).
      rewrite Hpar. right. left. }
  cbn [for_each]. unfold mbind at 1 2, M_bind at 1 2.
  rewrite (bind_parameter_step _ _ _ _ _ dep1) by done.
  unfold mbind at 1 3, M_bind at 1 3.
  pose proof (resolve_extends fuel dep1 (Some (push stack I)) w) as (Hself & _).
  destruct (resolve py fuel dep1 (Some (push stack I)) w) as [[v1| |] w1];
    try done.
  simpl in Hself. unfold mret at 1, M_ret at 1.
  unfold mbind at 1 2, M_bind at 1 2.
  rewrite (bind_parameter_step _ _ _ _ _ dep2) by (by rewrite ?Hself).
  unfold mbind, M_bind.
  by destruct (resolve py fuel dep2 (Some (push stack I)) w1) as [[v2| |] w2].
Qed.

(** The diamond in closed form, when the four constructors have no other
    parameters: five objects are built, the two instances for [D] first
    under [B] and then under [C]. *)
Lemma diamond_closed_form fuel w A B C D IA IB IC ID pb ab pc ac pd ad pd' ad' :
  find_service (scoped_services (self w)) A = Some IA →
  find_service (scoped_services (self w)) B = Some IB →
  find_service (scoped_services (self w)) C = Some IC →
  find_service (scoped_services (self w)) D = Some ID →
  parameters (init_annotations py IA) = [(pb, ab); (pc, ac)] →
  interface py (self w) ab = Return B →
  interface py (self w) ac = Return C →
  parameters (init_annotations py IB) = [(pd, ad)] →
  interface py (self w) ad = Return D →
  parameters (init_annotations py IC) = [(pd', ad')] →
  interface py (self w) ad' = Return D →
  parameters (init_annotations py ID) = [] →
  let n := length (heap w) in
  resolve py (S (S (S fuel))) A None w =
    (Return (VInst IA (n + 4)),
     {| self := self w;
        heap := heap w ++
          [ {| ob_type := ID; ob_kwargs := ∅ |};
            {| ob_type := IB; ob_kwargs := {[pd := VInst ID n]} |};
            {| ob_type := ID; ob_kwargs := ∅ |};
            {| ob_type := IC; ob_kwargs := {[pd' := VInst ID (n + 2)]} |};
            {| ob_type := IA;
               ob_kwargs := <[pc := VInst IC (n + 3)]>
                              {[pb := VInst IB (n + 1)]} |} ];
        calls := calls w |}).
Proof.
  intros HA HB HC HD HIA Hab Hac HIB Had HIC Had' HID n.
  assert (A ≠ B ∧ A ≠ C ∧ A ≠ D ∧ B ≠ D ∧ C ≠ D) as (HAB & HAC & HAD & HBD & HCD).
  { split_and!; intros ->; simplify_eq; congruence. }
  assert (on_stack (Some [A]) B = false ∧ on_stack (Some [A]) C = false ∧
          on_stack (Some [A; B]) D = false ∧ on_stack (Some [A; C]) D = false)
    as (HsB & HsC & HsBD & HsCD).
  { unfold on_stack.
    split_and!; apply bool_decide_eq_false; rewrite !not_elem_of_cons;
      split_and!; try apply not_elem_of_nil; congruence. }
  rewrite (resolve_binary _ _ _ IA pb ab B pc ac C) by done.
  unfold mbind at 1, M_bind at 1.
  rewrite (resolve_unary _ _ _ IB pd ad D) by done.
  unfold mbind at 1, M_bind at 1.
  rewrite (resolve_leaf _ _ _ ID) by done.
  cbn [construct self heap calls push].
  unfold mbind at 1, M_bind at 1.
  rewrite (resolve_unary _ _ _ IC pd' ad' D) by done.
  unfold mbind at 1, M_bind at 1.
  rewrite (resolve_leaf _ _ _ ID) by done.
  unfold construct. cbn [self heap calls push].
  rewrite !length_app. cbn [length]. fold n.
  repeat rewrite <- app_assoc. cbn [app].
  replace (n + 1 + 1) with (n + 2) by lia.
  replace (n + 2 + 1) with (n + 3) by lia.
  replace (n + 3 + 1) with (n + 4) by lia.
  done.
Qed.

(** ** Callables *)

Lemma parameters_cons (anns : annotations) p a :
  parameters ((p, a) :: anns)
  = if decide (p = "return") then parameters anns else (p, a) :: parameters anns.
Proof.
  unfold parameters. rewrite filter_cons. cbn [fst].
  destruct (decide (p = "return")) as [->|Hp].
  - by rewrite decide_False by (by intros []).
  - by rewrite decide_True.
Qed.

(** The loop over the annotations, when it comes to its end: the keys it
    has set are the names of the annotated parameters, and the value under
    each is what a call of [rec], made during the loop, returned for the
    interface of that parameter. *)
Lemma for_each_bind_parameter_spec (rec : type → M Any) anns kwargs w kwargs' w' :
  (∀ dep w1, extends w1 (rec dep w1).2) →
  for_each anns (bind_parameter py rec) kwargs w = (Return kwargs', w') →
  extends w w' ∧
  dom kwargs' = dom kwargs ∪ list_to_set (parameters anns).*1 ∧
  ∀ p v, kwargs' !! p = Some v →
    kwargs !! p = Some v ∨
    ∃ a dep wa wb,
      (p, a) ∈ parameters anns ∧ interface py (self w) a = Return dep ∧
      extends w wa ∧ rec dep wa = (Return v, wb) ∧ extends wb w'.
Proof.
  intros Hrec. revert kwargs w.
  induction anns as [|[p a] anns IH]; intros kwargs w.
  { simpl. unfold mret, M_ret. intros [= <- <-].
    split_and!; [done|set_solver|auto]. }
  cbn [for_each]. unfold mbind, M_bind.
  destruct (bind_parameter py rec (p, a) kwargs w) as [[kw1| |] w1] eqn:Ebody;
    try done.
  intros (Hext & Hdom & Hval)%IH. rewrite parameters_cons.
  apply bind_parameter_Return
    in Ebody as [(-> & -> & ->)|(Hp & dep & v & Ha & Hcall & ->)].
  { by rewrite decide_True by done. }
  rewrite decide_False by done.
  assert (extends w w1) as Hstep.
  { pose proof (Hrec dep w) as Hx. by rewrite Hcall in Hx. }
  split_and!.
  - by etrans.
  - rewrite Hdom, dom_insert_L. simpl. set_solver.
  - intros q u Hq. apply Hval in Hq as [Hq|(a' & dep' & wa & wb & Hin & Ha' & ? & ? & ?)].
    + destruct (decide (p = q)) as [<-|Hne].
      * rewrite lookup_insert_eq in Hq. injection Hq as <-.
        right. exists a, dep, w, w1. split_and!; [left|done..].
      * rewrite lookup_insert_ne in Hq by done. by left.
    + right. exists a', dep', wa, wb.
      pose proof Hstep as (Hself & _). rewrite Hself in Ha'.
      split_and!; [by right|done| |done..]. by etrans.
Qed.

(** The loop comes to its end when every parameter can be resolved. *)
Lemma for_each_bind_parameter_Return (rec : type → M Any) inj anns kwargs w :
  self w = inj →
  (∀ dep w1, extends w1 (rec dep w1).2) →
  (∀ p a, (p, a) ∈ parameters anns →
     ∃ dep, interface py inj a = Return dep ∧
            ∀ w1, self w1 = inj → ∃ v w2, rec dep w1 = (Return v, w2)) →
  ∃ kwargs' w', for_each anns (bind_parameter py rec) kwargs w = (Return kwargs', w').
Proof.
  intros Hself Hrec. revert kwargs w Hself.
  induction anns as [|[p a] anns IH]; intros kwargs w Hself Hparams.
  { simpl. by eexists _, _. }
  rewrite parameters_cons in Hparams. cbn [for_each bind_parameter].
  destruct (decide (p = "return")) as [->|Hp].
  { unfold mbind, M_bind, mret, M_ret. apply IH; [done|].
    intros q b Hq. by apply (Hparams q b). }
  destruct (Hparams p a) as (dep & Ha & Hdep); [left|].
  destruct (Hdep w Hself) as (v & w1 & Hcall).
  unfold mbind at 1 2, M_bind at 1 2, reading. rewrite Hself, Ha.
  unfold mbind at 1, M_bind at 1. rewrite Hcall.
  unfold mret, M_ret. apply IH.
  - pose proof (Hrec dep w) as (Hx & _). rewrite Hcall in Hx. simpl in Hx.
    congruence.
  - intros q b Hq. apply (Hparams q b). by right.
Qed.

(** C7: [resolve_callable] raises [ValueError] for a value that is not
    callable.  For a callable [fn] whose annotated parameters can be
    resolved, it returns a closure over [fn] and the keyword arguments; it
    has not called [fn]; the keyword arguments are keyed by the names of
    the annotated parameters of [fn], and each is the value that [resolve]
    returned, during the call of [resolve_callable], for the interface of
    that parameter.  A call of the closure, in whatever world and however
    often, is the call of [fn] with those same keyword arguments and
    nothing more: no interface is resolved again, and the only constructor
    that runs is [fn] itself when [fn] is a class. *)
Theorem resolve_callable_binds_once fuel fn w :
  (callable py fn = false →
     resolve_callable py fuel fn w = (Raise ValueError, w)) ∧
  (callable py fn = true →
   (∀ p a, (p, a) ∈ parameters (getfullargspec py fn) →
      ∃ dep v w', interface py (self w) a = Return dep ∧
                  resolve py fuel dep None w = (Return v, w')) →
   ∃ kwargs w1,
     resolve_callable py fuel fn w
       = (Return {| lambda_fn := fn; lambda_kwargs := kwargs |}, w1) ∧
     extends w w1 ∧
     dom kwargs = list_to_set (parameters (getfullargspec py fn)).*1 ∧
     (∀ p v, kwargs !! p = Some v →
        ∃ a dep wa wb,
          (p, a) ∈ parameters (getfullargspec py fn) ∧
          interface py (self w) a = Return dep ∧ extends w wa ∧
          resolve py fuel dep None wa = (Return v, wb) ∧ extends wb w1) ∧
     (∀ w2, invoke {| lambda_fn := fn; lambda_kwargs := kwargs |} w2 =
        (Return (),
         match fn with
         | VType impl =>
             {| self := self w2;
                heap := heap w2 ++ [{| ob_type := impl; ob_kwargs := kwargs |}];
                calls := calls w2 |}
         | VInst _ _ =>
             {| self := self w2; heap := heap w2;
                calls := calls w2 ++ [(fn, kwargs)] |}
         end))).
Proof.
  unfold resolve_callable. split; intros Hcallable; rewrite Hcallable; [done|].
  cbn [negb]. intros Hparams.
  destruct (for_each_bind_parameter_Return
              (λ dependency, resolve py fuel dependency None) (self w)
              (getfullargspec py fn) ∅ w eq_refl)
    as (kwargs & w1 & Hloop).
  { intros; apply resolve_extends. }
  { intros p a (dep & v & w' & Ha & Hdep)%Hparams. exists dep. split; [done|].
    intros w2 Hself. by eapply resolve_Return_anywhere. }
  exists kwargs, w1. unfold mbind, M_bind. rewrite Hloop.
  apply for_each_bind_parameter_spec
    in Hloop as (Hext & Hdom & Hval); [|intros; apply resolve_extends].
  split_and!; [done|done| | |].
  - rewrite Hdom, dom_empty_L. set_solver.
  - intros p v [Hp|Hp]%Hval; [|done]. by rewrite lookup_empty in Hp.
  - intros w2. by destruct fn.
Qed.

(** ** A class object in the singleton table *)



(** * More on the recursion of [resolve] *)

(** ** Fuel *)

Lemma for_each_fuel (rec1 rec2 : type → M Any) anns kwargs w :
  (∀ dep w1, (rec1 dep w1).1 ≠ OutOfFuel → rec2 dep w1 = rec1 dep w1) →
  (for_each anns (bind_parameter py rec1) kwargs w).1 ≠ OutOfFuel →
  for_each anns (bind_parameter py rec2) kwargs w
  = for_each anns (bind_parameter py rec1) kwargs w.
Proof.
  intros Hrec. revert kwargs w.
  induction anns as [|[p a] anns IH]; intros kwargs w; [done|].
  cbn [for_each bind_parameter]. case_decide.
  { unfold mbind, M_bind, mret, M_ret. apply IH. }
  unfold mbind, M_bind, reading.
  destruct (interface py (self w) a) as [dep| |]; try done.
  intros Hloop.
  assert ((rec1 dep w).1 ≠ OutOfFuel) as Hne.
  { intros E. apply Hloop. by destruct (rec1 dep w) as [[v| |] w1]. }
  rewrite (Hrec dep w Hne).
  destruct (rec1 dep w) as [[v| |] w1]; try done.
  unfold mret, M_ret in *. by apply IH.
Qed.

(** A call that does not run out of fuel is the same with more fuel. *)
Lemma resolve_fuel_S fuel I stack w :
  (resolve py fuel I stack w).1 ≠ OutOfFuel →
  resolve py (S fuel) I stack w = resolve py fuel I stack w.
Proof.
  revert I stack w. induction fuel as [|fuel IH]; intros I stack w; [done|].
  rewrite (resolve_S (S fuel)), (resolve_S fuel).
  destruct (implementation py (self w) I) as [[impl|cls addr]| |]; try done.
  destruct (on_stack stack I); [done|].
  unfold mbind, M_bind. intros Hout.
  rewrite (for_each_fuel
             (λ dependency, resolve py fuel dependency (Some (push stack I))));
    [done|intros; by apply IH|].
  by destruct (for_each _ _ _ w) as [[kwargs| |] w1].
Qed.

Lemma resolve_fuel_le fuel fuel' I stack w :
  fuel ≤ fuel' →
  (resolve py fuel I stack w).1 ≠ OutOfFuel →
  resolve py fuel' I stack w = resolve py fuel I stack w.
Proof.
  induction 1 as [|fuel' _ IH]; [done|]. intros Hout.
  rewrite resolve_fuel_S; rewrite IH; done.
Qed.

(** X1: [resolve] always comes to an end, whatever the registry holds: the
    stack has no interface twice and, but for the root, holds values of
    the index only, so the recursion is never deeper than the index is
    large.  With fuel [enough] a call from the top returns or raises, and
    more fuel does not change what it does. *)
Theorem resolve_depth_bounded fuel I w :
  enough (self w) ≤ fuel →
  (resolve py fuel I None w).1 ≠ OutOfFuel ∧
  resolve py fuel I None w = resolve py (enough (self w)) I None w.
Proof.
  intros Hfuel. split; [by apply resolve_terminates|].
  apply resolve_fuel_le; [done|]. by apply resolve_terminates.
Qed.

(** ** Cycles that are raised are cycles of the graph *)

Lemma chain_rtc inj I (l : list type) J :
  chain py inj I l J → rtc (depends py inj) I J.
Proof.
  revert I. induction l as [|X l IH]; intros I; simpl.
  - by intros ->.
  - intros (_ & K & HIK & HK). eapply rtc_l; [done|]. by apply IH.
Qed.

Lemma chain_cycle inj I (l : list type) J :
  chain py inj I l J → J ∈ l →
  rtc (depends py inj) I J ∧ tc (depends py inj) J J.
Proof.
  revert I. induction l as [|X l IH]; intros I; simpl.
  { intros _ HJ. by apply elem_of_nil in HJ. }
  intros (-> & K & HIK & HK) [->|HJ]%elem_of_cons.
  - split; [done|]. eapply tc_rtc_r; [by apply tc_once|]. by eapply chain_rtc.
  - destruct (IH K HK HJ) as [Hrtc Htc]. split; [|done]. by eapply rtc_l.
Qed.

(** X3: [resolve] raises no false alarm.  When a call from the top raises
    [CyclicDependencyError], the interface that the error names is reached
    from the requested one and does need itself again, through the
    constructors of the bindings; an interface that is merely needed twice,
    on two branches, never raises it. *)
Theorem cyclic_error_is_a_cycle fuel I w n ns :
  (resolve py fuel I None w).1 = Raise (CyclicDependencyError n ns) →
  ∃ J, n = __name__ py J ∧
       rtc (depends py (self w)) I J ∧ tc (depends py (self w)) J J.
Proof.
  intros Hraise.
  pose proof (resolve_verdict fuel I None w) as Hv. rewrite Hraise in Hv.
  symmetry in Hv. simpl in Hv. rewrite verdict_None in Hv.
  apply verdict_cyclic_chain in Hv as (l & J & -> & _ & Hchain & HJ).
  exists J. split; [done|]. by eapply chain_cycle.
Qed.

(** ** When [resolve] returns *)

Lemma verdict_Return_sub fuel inj I stack J :
  verdict py fuel inj I stack = Return () →
  rtc (depends py inj) I J →
  ∃ fuel' (l : list type), verdict py fuel' inj J (Some l) = Return ().
Proof.
  revert I stack. induction fuel as [|fuel IH]; intros I stack; [done|].
  intros Hv Hrtc.
  apply rtc_inv in Hrtc as [->|(K & (b & (impl & p & HI & Hpb & Hp) & Hb) & Hrtc)].
  - destruct stack as [l|].
    + by exists (S fuel), l.
    + rewrite verdict_None in Hv. by exists (S fuel), [].
  - cbn [verdict] in Hv. rewrite HI in Hv.
    destruct (on_stack stack I); [done|].
    rewrite first_failure_Return in Hv. specialize (Hv _ Hpb).
    unfold check_parameter in Hv. rewrite decide_False, Hb in Hv by done.
    by apply (IH _ _ Hv Hrtc).
Qed.

Lemma resolve_Return_closed_acyclic fuel I stack w v w' :
  resolve py fuel I stack w = (Return v, w') →
  closed py (self w) I ∧ acyclic_from py (self w) I.
Proof.
  intros Hret.
  pose proof (resolve_verdict fuel I stack w) as Hv.
  rewrite Hret in Hv. symmetry in Hv. simpl in Hv.
  split.
  - intros J Hrtc.
    destruct (verdict_Return_sub _ _ _ _ _ Hv Hrtc) as (fuel' & l & HJ).
    split.
    + destruct fuel' as [|fuel']; [done|]. cbn [verdict] in HJ.
      destruct (implementation py (self w) J) as [u| |] eqn:E; [|done..].
      by eapply implementation_bound.
    + intros a Ha. by eapply verdict_Return_closed.
  - intros J Hrtc Hcycle.
    destruct (verdict_Return_sub _ _ _ _ _ Hv Hrtc) as (fuel' & l & HJ).
    by eapply verdict_Return_no_cycle.
Qed.

(** In a closed graph without cycle, no lookup and no cycle check of
    [resolve] raises. *)
Lemma resolve_closed_acyclic_no_Raise fuel I w e :
  closed py (self w) I → acyclic_from py (self w) I →
  (resolve py fuel I None w).1 ≠ Raise e.
Proof.
  intros Hclosed Hacyclic Hraise.
  pose proof (resolve_verdict fuel I None w) as Hv.
  rewrite Hraise in Hv. symmetry in Hv. simpl in Hv.
  pose proof Hv as Horigin.
  apply verdict_raise_origin in Horigin as [(n & ns & ->)|(J & Hrtc & HJ)].
  - rewrite verdict_None in Hv.
    apply verdict_cyclic_chain in Hv as (l & J & _ & _ & Hchain & HJ).
    destruct (chain_cycle _ _ _ _ Hchain HJ) as [Hrtc Hcycle].
    by apply (Hacyclic J).
  - destruct (Hclosed J Hrtc) as [Hbound Hparams].
    destruct HJ as [HJ|(a & Ha & HJ)].
    + by apply implementation_raise in HJ as [_ ?].
    + destruct (Hparams a Ha) as [K HK]. congruence.
Qed.

Lemma resolve_closed_acyclic_Return fuel I w :
  enough (self w) ≤ fuel →
  closed py (self w) I → acyclic_from py (self w) I →
  ∃ v w', resolve py fuel I None w = (Return v, w').
Proof.
  intros Hfuel Hclosed Hacyclic.
  pose proof (resolve_terminates fuel I w Hfuel) as Hterm.
  destruct (resolve py fuel I None w) as [[v|e|] w'] eqn:Hres;
    simpl in *; [by eauto| |done].
  destruct (resolve_closed_acyclic_no_Raise fuel I w e); [done..|].
  by rewrite Hres.
Qed.

(** X2: what a returned object says of the registry.  When [resolve]
    returns, with whatever stack, every interface that the requested one
    reaches has a binding, every annotation on the way names an interface
    of the index, and no interface on the way needs itself again. *)
Theorem resolve_returns_only_if fuel I stack w v w' :
  resolve py fuel I stack w = (Return v, w') →
  (∀ J, rtc (depends py (self w)) I J →
     bound (self w) J ∧
     (∀ a, parameter_of py (self w) J a →
           ∃ K, interface py (self w) a = Return K) ∧
     ¬ tc (depends py (self w)) J J).
Proof.
  intros [Hclosed Hacyclic]%resolve_Return_closed_acyclic J Hrtc.
  destruct (Hclosed J Hrtc) as [Hbound Hparams].
  split_and!; [done..|]. by apply Hacyclic.
Qed.

(** ** What [resolve] leaves alone *)

(** X5: whether [resolve] returns or raises, and what it raises, is a
    matter of the registry only: in two worlds with the same registry,
    whatever objects have been built in either, the same call has the same
    outcome. *)
Theorem resolve_outcome_of_registry fuel I stack w w' :
  self w = self w' →
  shape (resolve py fuel I stack w).1 = shape (resolve py fuel I stack w').1.
Proof. intros Hself. by rewrite !resolve_verdict, Hself. Qed.

(** X6: [resolve] and [resolve_callable], whether they return or raise,
    only add objects to the heap: the objects that were there stay at
    their addresses as they were, and no user function is called. *)
Theorem resolution_only_allocates fuel I stack fn w :
  let after_resolve := (resolve py fuel I stack w).2 in
  let after_callable := (resolve_callable py fuel fn w).2 in
  (∀ addr ob, heap w !! addr = Some ob → heap after_resolve !! addr = Some ob) ∧
  calls after_resolve = calls w ∧
  (∀ addr ob, heap w !! addr = Some ob → heap after_callable !! addr = Some ob) ∧
  calls after_callable = calls w.
Proof.
  cbv zeta.
  destruct (resolve_extends fuel I stack w) as (_ & Hc1 & Hp1).
  destruct (resolve_callable_extends fuel fn w) as (_ & Hc2 & Hp2).
  split_and!; [|done| |done].
  - intros addr ob Hob. by eapply prefix_lookup_Some.
  - intros addr ob Hob. by eapply prefix_lookup_Some.
Qed.

(** * More on the registry *)

(** ** The bindings conform *)

Lemma conforming_add_binding r inj :
  conforms py r = true → conforming py inj → conforming py (add_binding py r inj).
Proof.
  intros Hr [Hsc Hsg]. destruct r as [K impl|K s]; simpl in *; split; simpl.
  - intros I i [?|[= -> ->]%list_elem_of_singleton]%elem_of_app; auto.
  - done.
  - done.
  - intros I i [?|[= -> ->]%list_elem_of_singleton]%elem_of_app; auto.
Qed.

Lemma conforming_register r w :
  conforming py (self w) → conforming py (self (register py r w).2).
Proof.
  intros Hc.
  destruct (register_cases r w) as [(_ & ? & ->)|[(_ & _ & ->)|(? & _ & ->)]];
    try done.
  simpl. by apply conforming_add_binding.
Qed.

Lemma conforming_register_all rs w :
  conforming py (self w) → conforming py (self (register_all py rs w)).
Proof.
  revert w. induction rs as [|r rs IH]; intros w Hc; simpl; [done|].
  by apply IH, conforming_register.
Qed.

Lemma conforming_reachable rs h c :
  conforming py (self (register_all py rs (fresh h c))).
Proof.
  apply conforming_register_all.
  split; intros ?? H; simpl in H; by apply elem_of_nil in H.
Qed.

(** X7: whatever calls of [register_scoped] and [register_singleton] have
    been made on a new injector, in whatever order and whether they raised
    or not, every implementation in the scoped table is a subclass of its
    interface and every singleton in the singleton table is an instance of
    its interface. *)
Theorem bindings_conform rs h c :
  let inj := self (register_all py rs (fresh h c)) in
  (∀ I impl, (I, impl) ∈ scoped_services inj → issubclass py impl I = true) ∧
  (∀ I s, (I, s) ∈ singleton_services inj → isinstance py s I = true).
Proof. apply conforming_reachable. Qed.

(** X8: in a registry built by registrations, what [resolve] returns for
    [I] is an instance of [I], unless the binding of [I] is a class object
    in the singleton table: the value is the singleton, which was checked
    when it was registered, or a new instance of the implementation, which
    was checked to be a subclass of [I]. *)
Theorem resolve_returns_instance rs h c fuel I stack w v w' :
  self w = self (register_all py rs (fresh h c)) →
  (∀ t, find_service (singleton_services (self w)) I ≠ Some (VType t)) →
  resolve py fuel I stack w = (Return v, w') →
  isinstance py v I = true.
Proof.
  intros Hself Hclass Hret.
  destruct (conforming_reachable rs h c) as [Hsc Hsg]. rewrite <- Hself in Hsc, Hsg.
  apply resolve_Return in Hret
    as [(Hv & Hi & _)|(impl & kwargs & hp & Hi & -> & _ & _)];
    unfold implementation in Hi.
  - destruct (find_service (scoped_services (self w)) I) eqn:E1.
    { injection Hi as <-. done. }
    destruct (find_service (singleton_services (self w)) I) eqn:E2; [|done].
    injection Hi as ->. by apply Hsg, find_service_Some.
  - destruct (find_service (scoped_services (self w)) I) eqn:E1.
    { injection Hi as ->. unfold isinstance. simpl.
      by apply Hsc, find_service_Some. }
    destruct (find_service (singleton_services (self w)) I) eqn:E2; [|done].
    injection Hi as ->. by destruct (Hclass impl).
Qed.

(** ** The object that [resolve] builds *)

Lemma resolve_scoped_Return fuel I stack impl w v w' :
  find_service (scoped_services (self w)) I = Some impl →
  resolve py (S fuel) I stack w = (Return v, w') →
  ∃ kwargs w1,
    for_each (init_annotations py impl)
      (bind_parameter py
         (λ dependency, resolve py fuel dependency (Some (push stack I))))
      ∅ w = (Return kwargs, w1) ∧
    v = VInst impl (length (heap w1)) ∧
    w' = {| self := self w1;
            heap := heap w1 ++ [{| ob_type := impl; ob_kwargs := kwargs |}];
            calls := calls w1 |}.
Proof.
  intros Hscoped%implementation_scoped. rewrite resolve_S, Hscoped.
  destruct (on_stack stack I); [done|]. unfold mbind, M_bind.
  destruct (for_each _ _ _ w) as [[kwargs| |] w1] eqn:Hloop; try done.
  unfold construct. intros [= <- <-]. by exists kwargs, w1.
Qed.

(** X9: the object that [resolve] returns for a scoped binding is the last
    object of the heap; it has one keyword argument for each annotated
    parameter of the constructor, under the name of the parameter, and
    nothing else; and each argument is what [resolve] returned, in the
    course of the call, for the interface that the index has for the
    annotation, with the requested interface added to the stack. *)
Theorem resolve_wires_by_name fuel I stack impl w v w' :
  find_service (scoped_services (self w)) I = Some impl →
  resolve py (S fuel) I stack w = (Return v, w') →
  ∃ kwargs,
    v = VInst impl (length (heap w') - 1) ∧
    heap w' !! (length (heap w') - 1)
      = Some {| ob_type := impl; ob_kwargs := kwargs |} ∧
    dom kwargs = list_to_set (parameters (init_annotations py impl)).*1 ∧
    ∀ p u, kwargs !! p = Some u →
      ∃ a dep wa wb,
        (p, a) ∈ parameters (init_annotations py impl) ∧
        interface py (self w) a = Return dep ∧ extends w wa ∧
        resolve py fuel dep (Some (push stack I)) wa = (Return u, wb) ∧
        extends wb w'.
Proof.
  intros Hscoped Hret.
  destruct (resolve_scoped_Return _ _ _ _ _ _ _ Hscoped Hret)
    as (kwargs & w1 & Hloop & -> & ->).
  exists kwargs. simpl.
  apply for_each_bind_parameter_spec
    in Hloop as (Hext & Hdom & Hval); [|intros; apply resolve_extends].
  rewrite length_app. simpl.
  replace (length (heap w1) + 1 - 1) with (length (heap w1)) by lia.
  split_and!.
  - done.
  - by rewrite lookup_app_r, Nat.sub_diag by done.
  - rewrite Hdom, dom_empty_L. set_solver.
  - intros p u [Hp|(a & dep & wa & wb & ? & ? & ? & ? & Hwb)]%Hval.
    { by rewrite lookup_empty in Hp. }
    exists a, dep, wa, wb. split_and!; try done.
    etrans; [done|]. apply (construct_extends impl kwargs w1).
Qed.

Lemma parameters_functional (anns : annotations) p a b :
  NoDup anns.*1 → (p, a) ∈ anns → (p, b) ∈ anns → a = b.
Proof.
  induction anns as [|[q c] anns IH]; simpl.
  { intros _ H. by apply elem_of_nil in H. }
  intros [Hq Hnd]%NoDup_cons [[= -> ->]|Ha]%elem_of_cons [[= ->]|Hb]%elem_of_cons.
  - done.
  - destruct Hq. apply list_elem_of_fmap. by exists (q, b).
  - destruct Hq. apply list_elem_of_fmap. by exists (q, a).
  - by apply IH.
Qed.

(** X10: singletons are shared.  When the constructor of a scoped binding
    has a parameter whose interface has an instance in the singleton
    table, the object that [resolve] builds holds that very instance under
    the name of the parameter. *)
Theorem singleton_dependency_is_shared fuel I stack impl w v w' p a dep s :
  find_service (scoped_services (self w)) I = Some impl →
  NoDup (parameters (init_annotations py impl)).*1 →
  (p, a) ∈ parameters (init_annotations py impl) →
  interface py (self w) a = Return dep →
  implementation py (self w) dep = Return s →
  is_type s = false →
  resolve py (S fuel) I stack w = (Return v, w') →
  ∃ kwargs,
    heap w' !! (length (heap w') - 1)
      = Some {| ob_type := impl; ob_kwargs := kwargs |} ∧
    kwargs !! p = Some s.
Proof.
  intros Hscoped Hnodup Hpa Ha Hdep Hs Hret.
  destruct (resolve_scoped_Return _ _ _ _ _ _ _ Hscoped Hret)
    as (kwargs & w1 & Hloop & -> & ->).
  exists kwargs. simpl.
  apply for_each_bind_parameter_spec
    in Hloop as (_ & Hdom & Hval); [|intros; apply resolve_extends].
  split.
  { rewrite length_app. simpl.
    replace (length (heap w1) + 1 - 1) with (length (heap w1)) by lia.
    by rewrite lookup_app_r, Nat.sub_diag by done. }
  assert (p ∈ dom kwargs) as [u Hu]%elem_of_dom.
  { rewrite Hdom, dom_empty_L, elem_of_union. right.
    apply elem_of_list_to_set, list_elem_of_fmap. by exists (p, a). }
  rewrite Hu. f_equal.
  destruct (Hval p u Hu)
    as [Hp|(b & dep' & wa & wb & Hpb & Hb & (Hself & _) & Hcall & _)].
  { by rewrite lookup_empty in Hp. }
  assert (b = a) as -> by by eapply parameters_functional.
  assert (dep' = dep) as -> by congruence.
  destruct fuel as [|fuel]; [done|].
  rewrite resolve_S, Hself, Hdep in Hcall.
  destruct s; [done|]. by injection Hcall as <-.
Qed.

(** ** Registering, then looking up *)

(** X11: what has been registered is found.  After a registration of [I]
    that did not raise, and whatever registrations follow, [implementation]
    returns for [I] the implementation or the singleton that was given, and
    [interface] returns [I] for the class [I] and for its name. *)
Theorem registered_binding_is_found rs h c r rs' :
  let w0 := register_all py rs (fresh h c) in
  (register py r w0).1 = Return () →
  let inj := self (register_all py rs' (register py r w0).2) in
  let I := registered_interface r in
  implementation py inj I = Return (binding_of r) ∧
  interface py inj (AType I) = Return I ∧
  interface py inj (AStr (__name__ py I)) = Return I.
Proof.
  intros w0 Hok inj I. subst inj I.
  destruct (register_binding r w0) as (_ & _ & Hin & Hfind);
    [apply consistent_reachable|done|].
  destruct (register_all_keeps_binding rs' _ _ (mk_is_Some _ _ Hin))
    as (E & E1 & E2).
  unfold implementation, interface. rewrite E, Hin, E1, E2.
  split; [|done].
  destruct r as [K impl|K s]; simpl in *.
  - by rewrite Hfind.
  - destruct Hfind as [-> ->]. done.
Qed.

(** X12: the index and the tables agree.  In a registry built by
    registrations, [implementation] finds a binding for [I] exactly when
    [interface] returns [I] for the class [I]; and the interface that
    [interface] returns for an annotation bears the name in the annotation
    and has a binding, so that the lookup of a binding can fail for the
    requested interface only, never for a dependency. *)
Theorem index_agrees_with_tables rs h c :
  let inj := self (register_all py rs (fresh h c)) in
  (∀ I, (∃ v, implementation py inj I = Return v)
        ↔ interface py inj (AType I) = Return I) ∧
  (∀ a J, interface py inj a = Return J →
     annotation_name py a = Some (__name__ py J) ∧
     ∃ v, implementation py inj J = Return v).
Proof.
  intros inj. destruct (consistent_reachable rs h c) as [_ Hindex].
  fold inj in Hindex.
  assert (∀ J, bound inj J → ∃ v, implementation py inj J = Return v) as Hbound.
  { intros J HJ.
    destruct (implementation py inj J) as [v|e|] eqn:E; [by eauto| |].
    - by apply implementation_raise in E as [_ ?].
    - by apply implementation_not_OutOfFuel in E. }
  split.
  - intros I. unfold interface. split.
    + intros [v Hv%implementation_bound].
      assert (interfaces inj !! __name__ py I = Some I) as -> by by apply Hindex.
      done.
    + destruct (interfaces inj !! __name__ py I) as [t|] eqn:E; [|done].
      intros [= ->]. apply Hindex in E as [_ ?]. by apply Hbound.
  - intros a J Ha.
    assert (∃ n, annotation_name py a = Some n ∧ interfaces inj !! n = Some J)
      as (n & Hn & HJ).
    { unfold interface in Ha. destruct a as [n|t|]; simpl; [| |done].
      - destruct (interfaces inj !! n) eqn:E; [|done]. injection Ha as ->. eauto.
      - destruct (interfaces inj !! __name__ py t) eqn:E; [|done].
        injection Ha as ->. eauto. }
    apply Hindex in HJ as [<- HJ]. split; [done|]. by apply Hbound.
Qed.

(** ** Interfaces that have the same name *)

(** X13: the index is keyed by the name of the class.  Once an interface
    has been registered, a registration of any interface of the same name,
    the same class or another one, raises [ImplementedError] if it
    conforms, and changes nothing. *)
Theorem same_name_is_rejected r1 rs r2 w :
  __name__ py (registered_interface r2) = __name__ py (registered_interface r1) →
  (register py r1 w).1 = Return () →
  conforms py r2 = true →
  let w' := register_all py rs (register py r1 w).2 in
  register py r2 w'
    = (Raise (ImplementedError (__name__ py (registered_interface r1))), w').
Proof.
  intros Hname Hok Hconf w'.
  assert (is_Some (interfaces (self (register py r1 w).2)
                     !! __name__ py (registered_interface r1))) as Hin.
  { destruct (register_cases r1 w)
      as [(_ & ? & E)|[(_ & _ & E)|(_ & _ & E)]]; rewrite E in Hok |- *;
      try done.
    destruct r1; simpl; rewrite lookup_insert_eq; eauto. }
  destruct (register_all_keeps_binding rs _ _ Hin) as (E & _). fold w' in E.
  rewrite <- E in Hin.
  destruct (register_cases r2 w')
    as [(Hc & _)|[(_ & _ & ->)|(_ & Hfree & _)]].
  - congruence.
  - by rewrite Hname.
  - rewrite Hname in Hfree. rewrite Hfree in Hin. by destruct Hin.
Qed.

(** X14: and the tables are keyed by the class.  In a registry built by
    registrations where [I1] has a binding, another class [I2] of the same
    name has none: [interface] returns [I1] for it, so a parameter
    annotated with [I2] is given what is bound to [I1], while [resolve]
    for [I2] itself raises [UnimplementedError]. *)
Theorem same_name_is_an_alias rs h c w I1 I2 fuel stack :
  self w = self (register_all py rs (fresh h c)) →
  bound (self w) I1 →
  __name__ py I2 = __name__ py I1 →
  I2 ≠ I1 →
  interface py (self w) (AType I2) = Return I1 ∧
  resolve py (S fuel) I2 stack w
    = (Raise (UnimplementedError (__name__ py I2)), w).
Proof.
  intros Hself Hbound Hname Hne.
  assert (consistent py (self w)) as [_ Hindex].
  { rewrite Hself. apply consistent_reachable. }
  assert (interfaces (self w) !! __name__ py I1 = Some I1) as Hin
    by by apply Hindex.
  split.
  - unfold interface. by rewrite Hname, Hin.
  - assert (¬ bound (self w) I2) as Hunbound%implementation_unbound.
    { intros H2. assert (interfaces (self w) !! __name__ py I2 = Some I2) as Hin2
        by by apply Hindex.
      rewrite Hname in Hin2. congruence. }
    by rewrite resolve_S, Hunbound.
Qed.

(** ** The order of the registrations *)

Lemma register_all_tables rs w :
  NoDup (names_of py rs) →
  (∀ n, n ∈ names_of py rs → interfaces (self w) !! n = None) →
  let inj' := self (register_all py rs w) in
  (∀ I impl, (I, impl) ∈ scoped_services inj' ↔
     (I, impl) ∈ scoped_services (self w) ∨
     (RegisterScoped I impl ∈ rs ∧ issubclass py impl I = true)) ∧
  (∀ I s, (I, s) ∈ singleton_services inj' ↔
     (I, s) ∈ singleton_services (self w) ∨
     (RegisterSingleton I s ∈ rs ∧ isinstance py s I = true)).
Proof.
  revert w. induction rs as [|r rs IH]; intros w Hnodup Hfree.
  { simpl. split; intros ??; rewrite elem_of_nil; tauto. }
  unfold names_of in Hnodup, Hfree. rewrite fmap_cons in Hnodup, Hfree.
  fold (names_of py rs) in Hnodup, Hfree.
  apply NoDup_cons in Hnodup as [Hr Hnodup].
  assert (∀ n, n ∈ names_of py rs → interfaces (self w) !! n = None) as Hrest.
  { intros n Hn. apply Hfree. by right. }
  cbn [register_all].
  destruct (register_cases r w)
    as [(Hc & m & E)|[(_ & [t Hin] & _)|(Hc & _ & E)]].
  - rewrite E. cbn [snd]. destruct (IH w Hnodup Hrest) as [Hsc Hsg].
    split; intros I y; rewrite ?Hsc, ?Hsg, elem_of_cons.
    + split; [tauto|]. intros [?|[[<-|?] Hy]]; [tauto| |tauto].
      simpl in Hc. congruence.
    + split; [tauto|]. intros [?|[[<-|?] Hy]]; [tauto| |tauto].
      simpl in Hc. congruence.
  - rewrite Hfree in Hin; [done|left].
  - rewrite E. cbn [snd].
    destruct (IH {| self := add_binding py r (self w);
                    heap := heap w; calls := calls w |} Hnodup) as [Hsc Hsg].
    { intros n Hn. cbn [self].
      assert (interfaces (add_binding py r (self w))
              = <[__name__ py (registered_interface r) := registered_interface r]>
                  (interfaces (self w))) as -> by by destruct r.
      rewrite lookup_insert_ne by (by intros <-). by apply Hrest. }
    cbn [self] in Hsc, Hsg.
    split; intros I y; rewrite ?Hsc, ?Hsg, elem_of_cons;
      destruct r as [K impl|K s]; simpl in *;
      rewrite ?elem_of_app, ?list_elem_of_singleton; naive_solver.
Qed.

Lemma register_all_heap rs w : heap (register_all py rs w) = heap w.
Proof.
  revert w. induction rs as [|r rs IH]; intros w; simpl; [done|].
  rewrite IH.
  by destruct (register_cases r w) as [(_ & ? & ->)|[(_ & _ & ->)|(_ & _ & ->)]].
Qed.

Lemma find_service_elem {V} (services : list (type * V)) I v :
  NoDup services.*1 → find_service services I = Some v ↔ (I, v) ∈ services.
Proof.
  intros Hnodup. split; [apply find_service_Some|].
  induction services as [|[k x] services IH]; simpl.
  { intros H. by apply elem_of_nil in H. }
  apply NoDup_cons in Hnodup as [Hk Hnodup].
  intros [[= -> ->]|Hin]%elem_of_cons.
  - by rewrite decide_True.
  - rewrite decide_False; [by apply IH|].
    intros ->. apply Hk. apply list_elem_of_fmap. by exists (I, v).
Qed.

Lemma consistent_NoDup_keys inj :
  consistent py inj →
  NoDup (scoped_services inj).*1 ∧ NoDup (singleton_services inj).*1.
Proof.
  intros [(Hsc & _ & Hsg)%NoDup_app _].
  unfold scoped_names, singleton_names in *.
  split; eapply (NoDup_fmap_1 (__name__ py)); by rewrite <- list_fmap_compose.
Qed.

Lemma for_each_alike (rec : type → M Any) anns kwargs w w' :
  (∀ dep w1 w1', alike py w1 w1' →
     (rec dep w1).1 = (rec dep w1').1 ∧ alike py (rec dep w1).2 (rec dep w1').2) →
  alike py w w' →
  (for_each anns (bind_parameter py rec) kwargs w).1
    = (for_each anns (bind_parameter py rec) kwargs w').1 ∧
  alike py (for_each anns (bind_parameter py rec) kwargs w).2
           (for_each anns (bind_parameter py rec) kwargs w').2.
Proof.
  intros Hrec. revert kwargs w w'.
  induction anns as [|[p a] anns IH]; intros kwargs w w' Hw; [done|].
  cbn [for_each bind_parameter]. case_decide.
  { unfold mbind, M_bind, mret, M_ret. by apply IH. }
  unfold mbind, M_bind, reading.
  destruct Hw as (Hheap & Himpl & Hiface). rewrite <- (Hiface a).
  assert (alike py w w') as Hw by done.
  destruct (interface py (self w) a) as [dep| |]; try done.
  destruct (Hrec dep w w' Hw) as [Ho Hw1].
  destruct (rec dep w) as [o1 w1], (rec dep w') as [o1' w1']. simpl in *.
  subst o1'. destruct o1 as [v| |]; try done.
  unfold mret, M_ret. by apply IH.
Qed.

Lemma resolve_alike fuel I stack w w' :
  alike py w w' →
  (resolve py fuel I stack w).1 = (resolve py fuel I stack w').1 ∧
  alike py (resolve py fuel I stack w).2 (resolve py fuel I stack w').2.
Proof.
  revert I stack w w'. induction fuel as [|fuel IH]; intros I stack w w' Hw;
    [done|].
  rewrite !resolve_S. pose proof Hw as (Hheap & Himpl & Hiface).
  rewrite <- (Himpl I).
  destruct (implementation py (self w) I) as [[impl|cls addr]| |]; try done.
  destruct (on_stack stack I); [done|].
  unfold mbind, M_bind.
  destruct (for_each_alike
              (λ dependency, resolve py fuel dependency (Some (push stack I)))
              (init_annotations py impl) ∅ w w') as [Ho Hw1]; [|done|].
  { intros. by apply IH. }
  destruct (for_each _ _ _ w) as [o1 w1], (for_each _ _ _ w') as [o1' w1'].
  simpl in *. subst o1'. destruct o1 as [kwargs| |]; try done.
  destruct Hw1 as (Hheap1 & ? & ?). unfold construct. simpl.
  rewrite Hheap1. done.
Qed.

(** X16: the order of the registrations does not matter.  When the
    interfaces of a list of registrations have names that differ, the
    registrations made in any other order leave a registry that answers
    every lookup alike, and every call of [resolve] in it has the same
    outcome and builds the same objects. *)
Theorem registration_order_is_irrelevant rs rs' h c :
  rs ≡ₚ rs' →
  NoDup (names_of py rs) →
  let w := register_all py rs (fresh h c) in
  let w' := register_all py rs' (fresh h c) in
  (∀ I, implementation py (self w) I = implementation py (self w') I) ∧
  (∀ a, interface py (self w) a = interface py (self w') a) ∧
  (∀ fuel I stack,
     (resolve py fuel I stack w).1 = (resolve py fuel I stack w').1 ∧
     heap (resolve py fuel I stack w).2 = heap (resolve py fuel I stack w').2).
Proof.
  intros Hperm Hnodup w w'.
  assert (NoDup (names_of py rs')) as Hnodup'.
  { unfold names_of in *. by rewrite <- Hperm. }
  destruct (register_all_tables rs (fresh h c) Hnodup) as [Hsc Hsg]; [done|].
  destruct (register_all_tables rs' (fresh h c) Hnodup') as [Hsc' Hsg']; [done|].
  fold w in Hsc, Hsg. fold w' in Hsc', Hsg'.
  pose proof (consistent_reachable rs h c) as Hcons. fold w in Hcons.
  pose proof (consistent_reachable rs' h c) as Hcons'. fold w' in Hcons'.
  destruct (consistent_NoDup_keys _ Hcons) as [Hk1 Hk2].
  destruct (consistent_NoDup_keys _ Hcons') as [Hk1' Hk2'].
  assert (∀ I, find_service (scoped_services (self w)) I
               = find_service (scoped_services (self w')) I) as Hfs.
  { intros I. apply option_eq. intros impl.
    rewrite !find_service_elem, Hsc, Hsc' by done. by setoid_rewrite Hperm. }
  assert (∀ I, find_service (singleton_services (self w)) I
               = find_service (singleton_services (self w')) I) as Hfg.
  { intros I. apply option_eq. intros s.
    rewrite !find_service_elem, Hsg, Hsg' by done. by setoid_rewrite Hperm. }
  assert (∀ t, bound (self w) t ↔ bound (self w') t) as Hbound.
  { intros t. unfold bound. rewrite !list_elem_of_fmap.
    split; intros [([k x] & -> & Hin)|([k x] & -> & Hin)];
      [left|right|left|right]; exists (k, x); (split; [done|]);
      revert Hin; rewrite ?Hsc, ?Hsc', ?Hsg, ?Hsg'; by setoid_rewrite Hperm. }
  assert (interfaces (self w) = interfaces (self w')) as Hindex.
  { apply map_eq. intros n. apply option_eq. intros t.
    destruct Hcons as [_ ->], Hcons' as [_ ->]. by rewrite Hbound. }
  assert (alike py w w') as Hw.
  { split_and!.
    - unfold w, w'. by rewrite !register_all_heap.
    - intros I. unfold implementation. by rewrite Hfs, Hfg.
    - intros a. unfold interface. by rewrite Hindex. }
  destruct Hw as (? & ? & ?). split_and!; [done..|].
  intros fuel I stack.
  destruct (resolve_alike fuel I stack w w') as [? (? & _)]; done.
Qed.

(** * The diamond *)

Lemma extends_length w w' : extends w w' → length (heap w) ≤ length (heap w').
Proof. intros (_ & _ & Hprefix). by apply prefix_length. Qed.

Lemma extends_lookup w w' addr ob :
  extends w w' → heap w !! addr = Some ob → heap w' !! addr = Some ob.
Proof. intros (_ & _ & Hprefix) Hob. by eapply prefix_lookup_Some. Qed.

Lemma extends_self w w' : extends w w' → self w' = self w.
Proof. by intros (? & _). Qed.

(** A key that is no parameter keeps its value through the loop. *)
Lemma for_each_outside (rec : type → M Any) anns kwargs w kwargs' w' q :
  for_each anns (bind_parameter py rec) kwargs w = (Return kwargs', w') →
  q ∉ (parameters anns).*1 →
  kwargs' !! q = kwargs !! q.
Proof.
  revert kwargs w. induction anns as [|[p a] anns IH]; intros kwargs w.
  { simpl. unfold mret, M_ret. by intros [= <- <-]. }
  rewrite parameters_cons. cbn [for_each]. unfold mbind, M_bind.
  destruct (bind_parameter py rec (p, a) kwargs w) as [[kw1| |] w1] eqn:Ebody;
    try done.
  apply bind_parameter_Return
    in Ebody as [(-> & -> & ->)|(Hp & dep & v & _ & _ & ->)].
  { rewrite decide_True by done. apply IH. }
  rewrite decide_False by done. rewrite fmap_cons, not_elem_of_cons. cbn [fst].
  intros Hloop [Hq Hrest]. rewrite (IH _ _ Hloop Hrest).
  by rewrite lookup_insert_ne.
Qed.

(** The call of the loop for one parameter. *)
Lemma for_each_one_call (rec : type → M Any) anns kwargs w kwargs' w' p a :
  (∀ dep w1, extends w1 (rec dep w1).2) →
  NoDup (parameters anns).*1 →
  for_each anns (bind_parameter py rec) kwargs w = (Return kwargs', w') →
  (p, a) ∈ parameters anns →
  ∃ dep u wa wb,
    interface py (self w) a = Return dep ∧ kwargs' !! p = Some u ∧
    extends w wa ∧ rec dep wa = (Return u, wb) ∧ extends wb w'.
Proof.
  intros Hrec. revert kwargs w.
  induction anns as [|[p0 a0] anns IH]; intros kwargs w.
  { intros _ _ Hin. by apply elem_of_nil in Hin. }
  rewrite parameters_cons. cbn [for_each]. unfold mbind, M_bind.
  destruct (bind_parameter py rec (p0, a0) kwargs w) as [[kw1| |] w1] eqn:Ebody;
    try done.
  apply bind_parameter_Return
    in Ebody as [(-> & -> & ->)|(Hp & dep0 & v0 & Ha0 & Hcall & ->)].
  { rewrite decide_True by done. apply IH. }
  rewrite decide_False by done. rewrite fmap_cons. cbn [fst].
  intros [Hp0 Hnodup]%NoDup_cons Hloop Hin.
  assert (extends w w1) as Hstep.
  { pose proof (Hrec dep0 w) as Hx. by rewrite Hcall in Hx. }
  apply elem_of_cons in Hin as [[= -> ->]|Hin].
  - exists dep0, v0, w, w1. split_and!; try done.
    + rewrite (for_each_outside _ _ _ _ _ _ p0 Hloop Hp0).
      apply lookup_insert_eq.
    + by apply for_each_bind_parameter_spec in Hloop as (? & _).
  - destruct (IH _ _ Hnodup Hloop Hin) as (dep & u & wa & wb & Ha & ? & ? & ? & ?).
    exists dep, u, wa, wb. rewrite (extends_self _ _ Hstep) in Ha.
    split_and!; try done. by etrans.
Qed.

(** The calls of the loop for two parameters: one is over before the other
    begins. *)
Lemma for_each_two_calls (rec : type → M Any) anns kwargs w kwargs' w' p a q b :
  (∀ dep w1, extends w1 (rec dep w1).2) →
  NoDup (parameters anns).*1 →
  for_each anns (bind_parameter py rec) kwargs w = (Return kwargs', w') →
  (p, a) ∈ parameters anns → (q, b) ∈ parameters anns → p ≠ q →
  ∃ depa u wa wb depb v wc wd,
    (interface py (self w) a = Return depa ∧ kwargs' !! p = Some u ∧
     extends w wa ∧ rec depa wa = (Return u, wb) ∧ extends wb w') ∧
    (interface py (self w) b = Return depb ∧ kwargs' !! q = Some v ∧
     extends w wc ∧ rec depb wc = (Return v, wd) ∧ extends wd w') ∧
    (extends wb wc ∨ extends wd wa).
Proof.
  intros Hrec. revert kwargs w.
  induction anns as [|[p0 a0] anns IH]; intros kwargs w.
  { intros _ _ Hin. by apply elem_of_nil in Hin. }
  rewrite parameters_cons. cbn [for_each]. unfold mbind, M_bind.
  destruct (bind_parameter py rec (p0, a0) kwargs w) as [[kw1| |] w1] eqn:Ebody;
    try done.
  apply bind_parameter_Return
    in Ebody as [(-> & -> & ->)|(Hp & dep0 & v0 & Ha0 & Hcall & ->)].
  { rewrite decide_True by done. apply IH. }
  rewrite decide_False by done. rewrite fmap_cons. cbn [fst].
  intros [Hp0 Hnodup]%NoDup_cons Hloop Hinp Hinq Hne.
  assert (extends w w1) as Hstep.
  { pose proof (Hrec dep0 w) as Hx. by rewrite Hcall in Hx. }
  assert (extends w1 w') as Hrest
    by by apply for_each_bind_parameter_spec in Hloop as (? & _).
  assert (kwargs' !! p0 = Some v0) as Hhead.
  { rewrite (for_each_outside _ _ _ _ _ _ p0 Hloop Hp0).
    apply lookup_insert_eq. }
  apply elem_of_cons in Hinp as [[= -> ->]|Hinp];
    apply elem_of_cons in Hinq as [[= -> ->]|Hinq].
  - done.
  - destruct (for_each_one_call _ _ _ _ _ _ _ _ Hrec Hnodup Hloop Hinq)
      as (depb & v & wc & wd & Hb & ? & ? & ? & ?).
    rewrite (extends_self _ _ Hstep) in Hb.
    exists dep0, v0, w, w1, depb, v, wc, wd.
    split_and!; try done; [by etrans|by left].
  - destruct (for_each_one_call _ _ _ _ _ _ _ _ Hrec Hnodup Hloop Hinp)
      as (depa & u & wa & wb & Ha & ? & ? & ? & ?).
    rewrite (extends_self _ _ Hstep) in Ha.
    exists depa, u, wa, wb, dep0, v0, w, w1.
    split_and!; try done; [by etrans|by right].
  - destruct (IH _ _ Hnodup Hloop Hinp Hinq Hne)
      as (depa & u & wa & wb & depb & v & wc & wd
          & (Ha & ? & ? & ? & ?) & (Hb & ? & ? & ? & ?) & ?).
    rewrite (extends_self _ _ Hstep) in Ha, Hb.
    exists depa, u, wa, wb, depb, v, wc, wd.
    split_and!; try done; by etrans.
Qed.

(** The object that a call for a scoped binding has built, and the loop
    that resolved its arguments. *)
Lemma resolve_scoped_node fuel I stack impl w v w' :
  find_service (scoped_services (self w)) I = Some impl →
  resolve py fuel I stack w = (Return v, w') →
  ∃ fuel' kwargs w1,
    fuel = S fuel' ∧
    for_each (init_annotations py impl)
      (bind_parameter py
         (λ dependency, resolve py fuel' dependency (Some (push stack I))))
      ∅ w = (Return kwargs, w1) ∧
    extends w w1 ∧ extends w1 w' ∧
    v = VInst impl (length (heap w1)) ∧
    heap w' !! length (heap w1)
      = Some {| ob_type := impl; ob_kwargs := kwargs |} ∧
    length (heap w') = S (length (heap w1)).
Proof.
  intros Hscoped Hret. destruct fuel as [|fuel]; [done|].
  destruct (resolve_scoped_Return _ _ _ _ _ _ _ Hscoped Hret)
    as (kwargs & w1 & Hloop & -> & ->).
  exists fuel, kwargs, w1. split_and!; try done.
  - by apply for_each_bind_parameter_spec in Hloop as (? & _);
      [|intros; apply resolve_extends].
  - apply (construct_extends impl kwargs w1).
  - simpl. by rewrite lookup_app_r, Nat.sub_diag by done.
  - simpl. rewrite length_app. simpl. lia.
Qed.

(** An interface with a scoped binding that is the dependency of a
    parameter of a scoped binding: the object built for it is an argument
    of the object built for the other, and it was built during the call
    for the other. *)
Lemma resolve_scoped_child fuel I stack impl w v w' p a K implK :
  find_service (scoped_services (self w)) I = Some impl →
  find_service (scoped_services (self w)) K = Some implK →
  NoDup (parameters (init_annotations py impl)).*1 →
  (p, a) ∈ parameters (init_annotations py impl) →
  interface py (self w) a = Return K →
  resolve py fuel I stack w = (Return v, w') →
  ∃ addr kwargs addrK kwargsK,
    v = VInst impl addr ∧
    heap w' !! addr = Some {| ob_type := impl; ob_kwargs := kwargs |} ∧
    kwargs !! p = Some (VInst implK addrK) ∧
    heap w' !! addrK = Some {| ob_type := implK; ob_kwargs := kwargsK |} ∧
    length (heap w) ≤ addrK ∧ addrK < addr ∧ S addr = length (heap w').
Proof.
  intros HI HK Hnodup Hpa Ha Hret.
  destruct (resolve_scoped_node _ _ _ _ _ _ _ HI Hret)
    as (fuel' & kwargs & w1 & -> & Hloop & Hw1 & Hw' & -> & Hobj & Hlen).
  destruct (for_each_one_call _ _ _ _ _ _ _ _
              (λ dep w2, resolve_extends fuel' dep (Some (push stack I)) w2)
              Hnodup Hloop Hpa)
    as (dep & u & wa & wb & Ha' & Hu & Hwa & Hcall & Hwb).
  assert (dep = K) as -> by congruence.
  rewrite <- (extends_self _ _ Hwa) in HK.
  destruct (resolve_scoped_node _ _ _ _ _ _ _ HK Hcall)
    as (fuelK & kwargsK & wK & _ & _ & HwK & HwbK & -> & HobjK & HlenK).
  exists (length (heap w1)), kwargs, (length (heap wK)), kwargsK.
  pose proof (extends_length _ _ Hwa). pose proof (extends_length _ _ HwK).
  pose proof (extends_length _ _ Hwb).
  split_and!; try done; try lia.
  eapply extends_lookup; [exact Hw'|]. by eapply extends_lookup.
Qed.

(** C3, as amended: a diamond is resolved.  [A], [B], [C] and [D] have
    scoped bindings; the constructor for [A] has a parameter for [B] and
    another for [C], those for [B] and for [C] have a parameter for [D];
    every interface that [A] reaches is bound, every annotation on the way
    names an interface of the index, and no interface on the way needs
    itself again.  Then [resolve] for [A] returns: it raises no
    [CyclicDependencyError], since [D] is not on the stack when it is
    resolved the second time.  And the object it returns holds an
    instance for [B] and an instance for [C], each of which holds an
    instance of the implementation of [D] of its own: the two are at
    different addresses and were both built by this call. *)
Theorem diamond_tolerated fuel w A B C D IA IB IC ID pb ab pc ac pd ad pd' ad' :
  find_service (scoped_services (self w)) A = Some IA →
  find_service (scoped_services (self w)) B = Some IB →
  find_service (scoped_services (self w)) C = Some IC →
  find_service (scoped_services (self w)) D = Some ID →
  NoDup (parameters (init_annotations py IA)).*1 →
  (pb, ab) ∈ parameters (init_annotations py IA) →
  (pc, ac) ∈ parameters (init_annotations py IA) →
  pb ≠ pc →
  interface py (self w) ab = Return B →
  interface py (self w) ac = Return C →
  NoDup (parameters (init_annotations py IB)).*1 →
  (pd, ad) ∈ parameters (init_annotations py IB) →
  interface py (self w) ad = Return D →
  NoDup (parameters (init_annotations py IC)).*1 →
  (pd', ad') ∈ parameters (init_annotations py IC) →
  interface py (self w) ad' = Return D →
  closed py (self w) A →
  acyclic_from py (self w) A →
  enough (self w) ≤ fuel →
  ∃ a b c d1 d2 kwA kwB kwC kwD1 kwD2 w',
    resolve py fuel A None w = (Return (VInst IA a), w') ∧
    heap w' !! a = Some {| ob_type := IA; ob_kwargs := kwA |} ∧
    kwA !! pb = Some (VInst IB b) ∧
    kwA !! pc = Some (VInst IC c) ∧
    heap w' !! b = Some {| ob_type := IB; ob_kwargs := kwB |} ∧
    kwB !! pd = Some (VInst ID d1) ∧
    heap w' !! c = Some {| ob_type := IC; ob_kwargs := kwC |} ∧
    kwC !! pd' = Some (VInst ID d2) ∧
    heap w' !! d1 = Some {| ob_type := ID; ob_kwargs := kwD1 |} ∧
    heap w' !! d2 = Some {| ob_type := ID; ob_kwargs := kwD2 |} ∧
    d1 ≠ d2 ∧
    length (heap w) ≤ d1 ∧ length (heap w) ≤ d2.
Proof.
  intros HA HB HC HD HndA HpbA HpcA Hne Hab Hac HndB HpdB Had HndC HpdC Had'
    Hclosed Hacyclic Hfuel.
  destruct (resolve_closed_acyclic_Return fuel A w Hfuel Hclosed Hacyclic)
    as (v & w' & Hret).
  destruct (resolve_scoped_node _ _ _ _ _ _ _ HA Hret)
    as (fuel' & kwA & w1 & -> & Hloop & Hw1 & Hw' & -> & HobjA & HlenA).
  destruct (for_each_two_calls _ _ _ _ _ _ _ _ _ _
              (λ dep w2, resolve_extends fuel' dep (Some (push None A)) w2)
              HndA Hloop HpbA HpcA Hne)
    as (depB & uB & waB & wbB & depC & uC & waC & wbC
        & (HaB & HkB & HwaB & HcallB & HwbB)
        & (HaC & HkC & HwaC & HcallC & HwbC) & Horder).
  assert (depB = B) as -> by congruence.
  assert (depC = C) as -> by congruence.
  destruct (resolve_scoped_child fuel' B (Some (push None A)) IB waB uB wbB
              pd ad D ID) as (b & kwB & d1 & kwD1 & -> & HobjB & HkD1 & HobjD1 & ? & ? & ?);
    rewrite ?(extends_self _ _ HwaB); try done.
  destruct (resolve_scoped_child fuel' C (Some (push None A)) IC waC uC wbC
              pd' ad' D ID) as (c & kwC & d2 & kwD2 & -> & HobjC & HkD2 & HobjD2 & ? & ? & ?);
    rewrite ?(extends_self _ _ HwaC); try done.
  pose proof (extends_length _ _ HwaB). pose proof (extends_length _ _ HwaC).
  exists (length (heap w1)), b, c, d1, d2, kwA, kwB, kwC, kwD1, kwD2, w'.
  assert (∀ addr ob, heap wbB !! addr = Some ob → heap w' !! addr = Some ob)
    as HliftB.
  { intros addr ob Hob. eapply extends_lookup; [exact Hw'|].
    eapply extends_lookup; [exact HwbB|exact Hob]. }
  assert (∀ addr ob, heap wbC !! addr = Some ob → heap w' !! addr = Some ob)
    as HliftC.
  { intros addr ob Hob. eapply extends_lookup; [exact Hw'|].
    eapply extends_lookup; [exact HwbC|exact Hob]. }
  split_and!; try done; auto; try lia.
  destruct Horder as [Hord%extends_length|Hord%extends_length]; lia.
Qed.

End Properties.

(** * The properties at work on the classes of the test suite *)

Section Witnesses.
Import Classes.

Lemma registration_is_one_shot_witness :
  register py (RegisterSingleton SimpleOneService (VInst SimpleOneServiceImpl 0))
    (register py (RegisterScoped SimpleOneService SimpleOneServiceImpl) start).2
  = (Raise (ImplementedError "SimpleOneService"),
     (register py (RegisterScoped SimpleOneService SimpleOneServiceImpl) start).2).
Proof.
  apply (registration_is_one_shot py
           (RegisterScoped SimpleOneService SimpleOneServiceImpl) []
           (RegisterSingleton SimpleOneService (VInst SimpleOneServiceImpl 0))
           start); reflexivity.
Defined.

(** The second registration of an interface does not raise
    [ImplementedError] when its implementation does not fit: the
    conformance check comes first. *)
Lemma second_registration_mismatch :
  let w := (register_scoped py SimpleOneService SimpleOneServiceImpl start).2 in
  (register_scoped py SimpleOneService SimpleOneServiceImpl start).1 = Return () ∧
  (register_scoped py SimpleOneService SimpleTwoServiceImpl w).1
    = Raise (ImplementationInterfaceMismatchError
               "SimpleTwoServiceImpl" "SimpleOneService") ∧
  (register_scoped py SimpleOneService SimpleTwoServiceImpl w).1
    ≠ Raise (ImplementedError "SimpleOneService").
Proof. split_and!; [reflexivity..|discriminate]. Qed.

(** [testResolveConfig]: the configuration object comes back as it is,
    even with [Config] on the stack. *)
Lemma singleton_identity_witness :
  let w := (register_singleton py Config (VInst Config 0) start).2 in
  resolve py 1 Config (Some [Config]) w = (Return (VInst Config 0), w).
Proof.
  intros w.
  apply (singleton_identity py [] [] [] Config (VInst Config 0) [] w 0
           (Some [Config])); reflexivity.
Defined.

(** A class object registered as the singleton of [object] does not come
    back as it is: [resolve] builds an instance of it. *)
Lemma class_singleton_not_returned :
  let w := (register_singleton py object_ (VType Config) start).2 in
  (register_singleton py object_ (VType Config) start).1 = Return () ∧
  (resolve py 1 object_ None w).1 = Return (VInst Config 0) ∧
  (resolve py 1 object_ None w).1 ≠ Return (VType Config) ∧
  length (heap (resolve py 1 object_ None w).2) = 1.
Proof. split_and!; [reflexivity..|discriminate|reflexivity]. Qed.


(** What it builds there: an instance of [ComplexServiceImpl], after the
    two services it is given. *)
Example class_singleton_built :
  let w := (register_singleton py object_ (VType ComplexServiceImpl)
              (register_all py
                 [RegisterScoped SimpleOneService SimpleOneServiceImpl;
                  RegisterScoped SimpleTwoService SimpleTwoServiceImpl]
                 (fresh [] []))).2 in
  (resolve py 3 object_ None w).1 = Return (VInst ComplexServiceImpl 2) ∧
  heap (resolve py 3 object_ None w).2 =
    [ {| ob_type := SimpleOneServiceImpl; ob_kwargs := ∅ |};
      {| ob_type := SimpleTwoServiceImpl; ob_kwargs := ∅ |};
      {| ob_type := ComplexServiceImpl;
         ob_kwargs := {[ "simpleone_service" := VInst SimpleOneServiceImpl 0;
                         "simpletwo_service" := VInst SimpleTwoServiceImpl 1 ]} |} ].
Proof. split; vm_compute; reflexivity. Qed.

(** [testCyclicDependencyError] *)
Example test_cyclic_dependency_error :
  let w := (register_scoped py CyclicService CyclicServiceImpl start).2 in
  resolve py 3 CyclicService None w
  = (Raise (CyclicDependencyError "CyclicService" ["CyclicService"]), w).
Proof. reflexivity. Qed.

(** [testUnimplementedError], its three cases *)
Example test_unimplemented_error :
  (resolve py 2 ComplexService None start).1
    = Raise (UnimplementedError "ComplexService") ∧
  (resolve py 3 ComplexService None
     (register_all py [RegisterScoped ComplexService ComplexServiceImpl] start)).1
    = Raise (UnimplementedError "SimpleOneService") ∧
  (resolve py 4 ComplexService None
     (register_all py [RegisterScoped ComplexService ComplexServiceImpl;
                       RegisterScoped SimpleOneService SimpleOneServiceImpl]
        start)).1
    = Raise (UnimplementedError "SimpleTwoService").
Proof. split_and!; reflexivity. Qed.

(** [testResolveSuperComplexService] *)
Example test_resolve_super_complex_service :
  let w := register_all py
             [RegisterSingleton Config (VInst Config 0);
              RegisterScoped SuperComplexService SuperComplexServiceImpl;
              RegisterScoped SimpleOneService SimpleOneServiceImpl;
              RegisterScoped SimpleTwoService SimpleTwoServiceImpl]
             {| self := Injector_init;
                heap := [{| ob_type := Config; ob_kwargs := ∅ |}];
                calls := [] |} in
  let w' := (resolve py 6 SuperComplexService None w).2 in
  (resolve py 6 SuperComplexService None w).1
    = Return (VInst SuperComplexServiceImpl 3) ∧
  heap w' !! 3
    = Some {| ob_type := SuperComplexServiceImpl;
              ob_kwargs := {[ "config" := VInst Config 0;
                              "simpleone_service" := VInst SimpleOneServiceImpl 1;
                              "simpletwo_service" := VInst SimpleTwoServiceImpl 2 ]} |}.
Proof. split; vm_compute; reflexivity. Qed.

(** A service that needs an unregistered interface before it needs itself:
    [resolve] raises [UnimplementedError], not [CyclicDependencyError]. *)
Lemma cycle_behind_missing_interface :
  let w := (register_scoped py LateCycleService LateCycleServiceImpl start).2 in
  (register_scoped py LateCycleService LateCycleServiceImpl start).1 = Return () ∧
  depends py (self w) LateCycleService LateCycleService ∧
  (resolve py 3 LateCycleService None w).1
    = Raise (UnimplementedError "SimpleOneService") ∧
  ∀ n ns, (resolve py 3 LateCycleService None w).1
            ≠ Raise (CyclicDependencyError n ns).
Proof.
  split_and!; [reflexivity| |reflexivity|discriminate].
  exists (AStr "LateCycleService"). split; [|reflexivity].
  exists LateCycleServiceImpl, "late_cycle_service".
  split_and!; [reflexivity|right; left|discriminate].
Qed.



Example diamond_closed_form_example :
  resolve py 3 A None diamond =
    (Return (VInst AImpl 4),
     {| self := self diamond;
        heap :=
          [ {| ob_type := DImpl; ob_kwargs := ∅ |};
            {| ob_type := BImpl; ob_kwargs := {[ "d" := VInst DImpl 0 ]} |};
            {| ob_type := DImpl; ob_kwargs := ∅ |};
            {| ob_type := CImpl; ob_kwargs := {[ "d" := VInst DImpl 2 ]} |};
            {| ob_type := AImpl;
               ob_kwargs := <[ "c" := VInst CImpl 3 ]> {[ "b" := VInst BImpl 1 ]} |} ];
        calls := [] |}).
Proof.
  apply (diamond_closed_form py 0 diamond A B C D AImpl BImpl CImpl DImpl
           "b" (AType B) "c" (AType C) "d" (AType D) "d" (AStr "D"));
    reflexivity.
Defined.


Lemma resolve_callable_binds_once_witness :
  ∃ kwargs w1,
    resolve_callable py 6 inner supercomplex
      = (Return {| lambda_fn := inner; lambda_kwargs := kwargs |}, w1) ∧
    extends supercomplex w1 ∧
    dom kwargs = list_to_set (parameters (getfullargspec py inner)).*1 ∧
    (∀ p v, kwargs !! p = Some v →
       ∃ a dep wa wb,
         (p, a) ∈ parameters (getfullargspec py inner) ∧
         interface py (self supercomplex) a = Return dep ∧
         extends supercomplex wa ∧
         resolve py 6 dep None wa = (Return v, wb) ∧ extends wb w1) ∧
    (∀ w2, invoke {| lambda_fn := inner; lambda_kwargs := kwargs |} w2 =
       (Return (),
        {| self := self w2; heap := heap w2;
           calls := calls w2 ++ [(inner, kwargs)] |})).
Proof.
  apply (proj2 (resolve_callable_binds_once py 6 inner supercomplex));
    [reflexivity|].
  intros p a Hin. vm_compute in Hin.
  apply list_elem_of_singleton in Hin as [= -> ->].
  eexists _, _, _. split; reflexivity.
Defined.

(** [testResolveCallable]: the closure is built once, with the service at
    address 3, and each call of it is a call of [inner] with that service. *)
Example test_resolve_callable :
  let made := resolve_callable py 6 inner supercomplex in
  let kwargs : gmap string Any :=
    {[ "supercomplex_service" := VInst SuperComplexServiceImpl 3 ]} in
  let f := {| lambda_fn := inner; lambda_kwargs := kwargs |} in
  let twice := (invoke f (invoke f made.2).2).2 in
  made.1 = Return f ∧
  length (heap made.2) = 4 ∧
  heap twice = heap made.2 ∧
  self twice = self made.2 ∧
  calls twice = [(inner, kwargs); (inner, kwargs)].
Proof. split_and!; vm_compute; reflexivity. Qed.

(** [resolve_callable] of a value that is not callable *)
Example test_not_callable :
  resolve_callable py 6 (VInst Config 0) supercomplex
  = (Raise ValueError, supercomplex).
Proof. reflexivity. Qed.

(** ** More of the same *)

Lemma resolve_depth_bounded_witness :
  (resolve py 7 ComplexService None complex).1 ≠ OutOfFuel ∧
  resolve py 7 ComplexService None complex
    = resolve py (enough (self complex)) ComplexService None complex.
Proof.
  apply (resolve_depth_bounded py 7 ComplexService complex). vm_compute. lia.
Defined.

Lemma resolve_returns_only_if_witness :
  bound (self complex) SimpleOneService ∧
  (∀ a, parameter_of py (self complex) SimpleOneService a →
        ∃ K, interface py (self complex) a = Return K) ∧
  ¬ tc (depends py (self complex)) SimpleOneService SimpleOneService.
Proof.
  apply (resolve_returns_only_if py 5 ComplexService None complex
           (VInst ComplexServiceImpl 2)
           (resolve py 5 ComplexService None complex).2).
  - vm_compute. reflexivity.
  - apply rtc_once. exists (AStr "SimpleOneService"). split; [|reflexivity].
    exists ComplexServiceImpl, "simpleone_service".
    split_and!; [reflexivity|right; left|discriminate].
Defined.

Lemma cyclic_error_is_a_cycle_witness :
  let w := (register_scoped py CyclicService CyclicServiceImpl start).2 in
  ∃ J, "CyclicService" = __name__ py J ∧
       rtc (depends py (self w)) CyclicService J ∧
       tc (depends py (self w)) J J.
Proof.
  intros w.
  apply (cyclic_error_is_a_cycle py 3 CyclicService w
           "CyclicService" ["CyclicService"]).
  reflexivity.
Defined.

Lemma resolve_outcome_of_registry_witness :
  let w' := (resolve py 5 ComplexService None complex).2 in
  shape (resolve py 5 ComplexService None complex).1
  = shape (resolve py 5 ComplexService None w').1.
Proof.
  intros w'.
  apply (resolve_outcome_of_registry py 5 ComplexService None complex w').
  reflexivity.
Defined.

Lemma resolve_returns_instance_witness :
  isinstance py (VInst ComplexServiceImpl 2) ComplexService = true.
Proof.
  apply (resolve_returns_instance py
           [RegisterScoped ComplexService ComplexServiceImpl;
            RegisterScoped SimpleOneService SimpleOneServiceImpl;
            RegisterScoped SimpleTwoService SimpleTwoServiceImpl] [] []
           5 ComplexService None complex (VInst ComplexServiceImpl 2)
           (resolve py 5 ComplexService None complex).2).
  - reflexivity.
  - intros t. vm_compute. discriminate.
  - vm_compute. reflexivity.
Defined.

Lemma resolve_wires_by_name_witness :
  let w' := (resolve py 5 ComplexService None complex).2 in
  ∃ kwargs,
    VInst ComplexServiceImpl 2 = VInst ComplexServiceImpl (length (heap w') - 1) ∧
    heap w' !! (length (heap w') - 1)
      = Some {| ob_type := ComplexServiceImpl; ob_kwargs := kwargs |} ∧
    dom kwargs
      = list_to_set (parameters (init_annotations py ComplexServiceImpl)).*1 ∧
    ∀ p u, kwargs !! p = Some u →
      ∃ a dep wa wb,
        (p, a) ∈ parameters (init_annotations py ComplexServiceImpl) ∧
        interface py (self complex) a = Return dep ∧ extends complex wa ∧
        resolve py 4 dep (Some (push None ComplexService)) wa = (Return u, wb) ∧
        extends wb w'.
Proof.
  intros w'.
  apply (resolve_wires_by_name py 4 ComplexService None ComplexServiceImpl
           complex (VInst ComplexServiceImpl 2) w').
  - reflexivity.
  - vm_compute. reflexivity.
Defined.

Lemma singleton_dependency_is_shared_witness :
  let w' := (resolve py 6 SuperComplexService None supercomplex).2 in
  ∃ kwargs,
    heap w' !! (length (heap w') - 1)
      = Some {| ob_type := SuperComplexServiceImpl; ob_kwargs := kwargs |} ∧
    kwargs !! "config" = Some (VInst Config 0).
Proof.
  intros w'.
  apply (singleton_dependency_is_shared py 5 SuperComplexService None
           SuperComplexServiceImpl supercomplex
           (VInst SuperComplexServiceImpl 3) w'
           "config" (AStr "Config") Config (VInst Config 0)).
  - reflexivity.
  - refine (bool_decide_unpack _ _). vm_compute. exact I.
  - vm_compute. left.
  - reflexivity.
  - reflexivity.
  - reflexivity.
  - vm_compute. reflexivity.
Defined.

Lemma registered_binding_is_found_witness :
  let inj := self (register_all py
                     [RegisterScoped SimpleTwoService SimpleTwoServiceImpl]
                     (register py
                        (RegisterScoped SimpleOneService SimpleOneServiceImpl)
                        start).2) in
  implementation py inj SimpleOneService = Return (VType SimpleOneServiceImpl) ∧
  interface py inj (AType SimpleOneService) = Return SimpleOneService ∧
  interface py inj (AStr (__name__ py SimpleOneService)) = Return SimpleOneService.
Proof.
  apply (registered_binding_is_found py [] [] []
           (RegisterScoped SimpleOneService SimpleOneServiceImpl)
           [RegisterScoped SimpleTwoService SimpleTwoServiceImpl]).
  reflexivity.
Defined.

Lemma registration_order_is_irrelevant_witness :
  let rs := [RegisterScoped ComplexService ComplexServiceImpl;
             RegisterScoped SimpleOneService SimpleOneServiceImpl;
             RegisterScoped SimpleTwoService SimpleTwoServiceImpl] in
  let rs' := [RegisterScoped SimpleOneService SimpleOneServiceImpl;
              RegisterScoped ComplexService ComplexServiceImpl;
              RegisterScoped SimpleTwoService SimpleTwoServiceImpl] in
  let w := register_all py rs (fresh [] []) in
  let w' := register_all py rs' (fresh [] []) in
  (∀ I, implementation py (self w) I = implementation py (self w') I) ∧
  (∀ a, interface py (self w) a = interface py (self w') a) ∧
  (∀ fuel I stack,
     (resolve py fuel I stack w).1 = (resolve py fuel I stack w').1 ∧
     heap (resolve py fuel I stack w).2 = heap (resolve py fuel I stack w').2).
Proof.
  intros rs rs' w w'.
  apply (registration_order_is_irrelevant py rs rs' [] []).
  - apply perm_swap.
  - refine (bool_decide_unpack _ _). vm_compute. exact I.
Defined.

Lemma diamond_tolerated_witness :
  ∃ a b c d1 d2 kwA kwB kwC kwD1 kwD2 w',
    resolve py 6 A None diamond = (Return (VInst AImpl a), w') ∧
    heap w' !! a = Some {| ob_type := AImpl; ob_kwargs := kwA |} ∧
    kwA !! "b" = Some (VInst BImpl b) ∧
    kwA !! "c" = Some (VInst CImpl c) ∧
    heap w' !! b = Some {| ob_type := BImpl; ob_kwargs := kwB |} ∧
    kwB !! "d" = Some (VInst DImpl d1) ∧
    heap w' !! c = Some {| ob_type := CImpl; ob_kwargs := kwC |} ∧
    kwC !! "d" = Some (VInst DImpl d2) ∧
    heap w' !! d1 = Some {| ob_type := DImpl; ob_kwargs := kwD1 |} ∧
    heap w' !! d2 = Some {| ob_type := DImpl; ob_kwargs := kwD2 |} ∧
    d1 ≠ d2 ∧
    length (heap diamond) ≤ d1 ∧ length (heap diamond) ≤ d2.
Proof.
  assert (resolve py 6 A None diamond
          = (Return (VInst AImpl 4), (resolve py 6 A None diamond).2)) as Hret
    by (vm_compute; reflexivity).
  apply (diamond_tolerated py 6 diamond A B C D AImpl BImpl CImpl DImpl
           "b" (AType B) "c" (AType C) "d" (AType D) "d" (AStr "D")).
  - reflexivity.
  - reflexivity.
  - reflexivity.
  - reflexivity.
  - refine (bool_decide_unpack _ _). vm_compute. exact I.
  - vm_compute. left.
  - vm_compute. right. left.
  - discriminate.
  - reflexivity.
  - reflexivity.
  - refine (bool_decide_unpack _ _). vm_compute. exact I.
  - vm_compute. left.
  - reflexivity.
  - refine (bool_decide_unpack _ _). vm_compute. exact I.
  - vm_compute. left.
  - reflexivity.
  - by apply (resolve_Return_closed_acyclic py _ _ _ _ _ _ Hret).
  - by apply (resolve_Return_closed_acyclic py _ _ _ _ _ _ Hret).
  - vm_compute. lia.
Defined.

End Witnesses.

Section Namesake_witnesses.
Import Namesakes.

(** The service of the second module cannot be registered beside that of
    the first. *)
Lemma same_name_is_rejected_witness :
  register py (RegisterScoped shipping_Service shipping_ServiceImpl) billing
  = (Raise (ImplementedError "Service"), billing).
Proof.
  apply (same_name_is_rejected py
           (RegisterScoped billing_Service billing_ServiceImpl) []
           (RegisterScoped shipping_Service shipping_ServiceImpl)
           {| self := Injector_init; heap := []; calls := [] |});
    reflexivity.
Defined.

Lemma same_name_is_an_alias_witness :
  interface py (self billing) (AType shipping_Service) = Return billing_Service ∧
  resolve py 1 shipping_Service None billing
    = (Raise (UnimplementedError (__name__ py shipping_Service)), billing).
Proof.
  apply (same_name_is_an_alias py
           [RegisterScoped billing_Service billing_ServiceImpl] [] []
           billing billing_Service shipping_Service 0 None).
  - reflexivity.
  - left. vm_compute. left.
  - reflexivity.
  - discriminate.
Defined.

(** A client annotated with the service of the second module is given the
    implementation of the first. *)
Example namesake_is_injected :
  let w := register_all py [RegisterScoped Client ClientImpl] billing in
  let w' := (resolve py 4 Client None w).2 in
  (resolve py 4 Client None w).1 = Return (VInst ClientImpl 1) ∧
  heap w' !! 0 = Some {| ob_type := billing_ServiceImpl; ob_kwargs := ∅ |} ∧
  issubclass py billing_ServiceImpl shipping_Service = false.
Proof. split_and!; vm_compute; reflexivity. Qed.

End Namesake_witnesses.

Section Variant_witnesses.
Import Variants.

(** Two diamonds that are not resolved as the diamond above.  In the
    first, of the classes of the test suite, [D] is bound to a singleton:
    [resolve] for [A] returns, but builds no instance for [D], and the
    instances for [B] and for [C] hold the same object.  In the second,
    the implementation of [D] needs an interface that is not registered:
    [resolve] for [A] raises [UnimplementedError]. *)
Lemma diamond_over_singleton_or_missing :
  let w := register_all Classes.py
             [RegisterScoped Classes.A Classes.AImpl;
              RegisterScoped Classes.B Classes.BImpl;
              RegisterScoped Classes.C Classes.CImpl;
              RegisterSingleton Classes.D (VInst Classes.DImpl 0)]
             {| self := Injector_init;
                heap := [{| ob_type := Classes.DImpl; ob_kwargs := ∅ |}];
                calls := [] |} in
  ((resolve Classes.py 6 Classes.A None w).1 = Return (VInst Classes.AImpl 3) ∧
   heap (resolve Classes.py 6 Classes.A None w).2 =
     [ {| ob_type := Classes.DImpl; ob_kwargs := ∅ |};
       {| ob_type := Classes.BImpl;
          ob_kwargs := {[ "d" := VInst Classes.DImpl 0 ]} |};
       {| ob_type := Classes.CImpl;
          ob_kwargs := {[ "d" := VInst Classes.DImpl 0 ]} |};
       {| ob_type := Classes.AImpl;
          ob_kwargs := <[ "c" := VInst Classes.CImpl 2 ]>
                         {[ "b" := VInst Classes.BImpl 1 ]} |} ]) ∧
  (find_service (scoped_services (self broken_diamond)) D = Some DImpl ∧
   depends py (self broken_diamond) A B ∧
   depends py (self broken_diamond) A C ∧
   depends py (self broken_diamond) B D ∧
   depends py (self broken_diamond) C D ∧
   (resolve py 6 A None broken_diamond).1 = Raise (UnimplementedError "E")).
Proof.
  split; [split; vm_compute; reflexivity|].
  split_and!; [reflexivity| | | | |reflexivity].
  - exists (AType B). split; [|reflexivity].
    exists AImpl, "b". split_and!; [reflexivity|left|discriminate].
  - exists (AType C). split; [|reflexivity].
    exists AImpl, "c". split_and!; [reflexivity|right; left|discriminate].
  - exists (AType D). split; [|reflexivity].
    exists BImpl, "d". split_and!; [reflexivity|left|discriminate].
  - exists (AType D). split; [|reflexivity].
    exists CImpl, "d". split_and!; [reflexivity|left|discriminate].
Qed.

Lemma early_cycle_is_clear :
  tc (clear_step py (self early_cycle)) EarlyCycleService EarlyCycleService.
Proof.
  apply tc_once.
  exists EarlyCycleServiceImpl, [], "early_cycle_service",
    (AStr "EarlyCycleService"), [("missing", AStr "Missing")].
  split_and!; [reflexivity|reflexivity|discriminate|reflexivity|].
  intros q b Hqb. by apply elem_of_nil in Hqb.
Qed.

(** The service that needs itself before it needs an unregistered
    interface: the cycle closes first. *)
Lemma cyclic_dependency_detected_witness :
  ∃ e w',
    resolve py 3 EarlyCycleService None early_cycle = (Raise e, w') ∧
    (tc (clear_step py (self early_cycle)) EarlyCycleService EarlyCycleService →
       ∃ n ns, e = CyclicDependencyError n ns) ∧
    (∀ n ns, e = CyclicDependencyError n ns →
       ∃ l J, n = __name__ py J ∧ ns = __name__ py <$> l ∧
              chain py (self early_cycle) EarlyCycleService l J ∧ J ∈ l) ∧
    ((∀ n ns, e ≠ CyclicDependencyError n ns) →
       ∃ J, rtc (depends py (self early_cycle)) EarlyCycleService J ∧
         (implementation py (self early_cycle) J = Raise e ∨
          ∃ a, parameter_of py (self early_cycle) J a ∧
               interface py (self early_cycle) a = Raise e)).
Proof.
  apply (cyclic_dependency_detected py 3 EarlyCycleService early_cycle).
  - apply tc_once. exists (AStr "EarlyCycleService").
    split; [|reflexivity].
    exists EarlyCycleServiceImpl, "early_cycle_service".
    split_and!; [reflexivity|left|discriminate].
  - vm_compute. lia.
Defined.

(** What it raises there, though an interface that it needs is missing. *)
Example early_cycle_raises :
  resolve py 3 EarlyCycleService None early_cycle
    = (Raise (CyclicDependencyError "EarlyCycleService" ["EarlyCycleService"]),
       early_cycle) ∧
  interfaces (self early_cycle) !! "Missing" = None.
Proof. split; reflexivity. Qed.

End Variant_witnesses.
